(** * Map colouring by backtracking: a shallow embedding of [back/server.py]

    The development follows the Python source function by function:
    [build_adj], [order_nodes], [compatible], [color_graph_backtracking]
    (with its inner closure [backtrack]) and the endpoint [solve].

    Modelling choices.
    - Python [str] is [string], Python [int] is [Z].
    - [adj] is a Python [dict] whose iteration order (the insertion order
      of its keys) decides the search order, so it is an insertion-ordered
      association list [dict]; [colors] is only ever read by key, so it is
      a finite map [gmap string Z].
    - A subscript that raises [KeyError] ([adj[u]], [del colors[u]]) makes
      the enclosing function return [None]; the totality lemmas show that
      no run of [solve] ever does so.
    - [backtrack] mutates the two closure variables [colors] and [steps];
      the embedding threads them as an explicit pair.  The store-level
      model further down keeps the live dictionary and every snapshot as
      objects of one heap, so that aliasing is expressible.
    - [backtrack(i)] is a structural recursion on [nodes[i:]].  The depth of
      the Python call stack is not modelled: the interpreter's recursion
      limit is outside the embedding. *)

From stdpp Require Import base option list strings gmap fin_maps sorting.
From Stdlib Require Import ZArith Lia.

Local Open Scope string_scope.
Local Open Scope list_scope.
Local Open Scope Z_scope.

(** ** Insertion-ordered dictionaries (Python [dict]) *)

Definition dict (V : Type) : Type := list (string * V).

Fixpoint dict_get {V} (d : dict V) (k : string) : option V :=
  match d with
  | [] => None
  | (k', v) :: d' => if decide (k' = k) then Some v else dict_get d' k
  end.

(** [k in d] *)
Definition dict_mem {V} (d : dict V) (k : string) : bool :=
  match dict_get d k with Some _ => true | None => false end.

(** [d[k] = v]: an existing key keeps its position, a new key goes last. *)
Fixpoint dict_set {V} (d : dict V) (k : string) (v : V) : dict V :=
  match d with
  | [] => [(k, v)]
  | (k', v') :: d' =>
      if decide (k' = k) then (k, v) :: d' else (k', v') :: dict_set d' k v
  end.

(** [d.keys()] *)
Definition dict_keys {V} (d : dict V) : list string := d.*1.

(** ** Models *)

Record Edge := { src : string; dst : string }.

Record SolveRequest := {
  nodes : list string;
  edges : list Edge;
  k_colors : Z;
  order : option string
}.

(** A request body without an [order] field takes the class default
    ["degree"]; an explicit [null] is [None]. *)
Definition SolveRequest_parse (ns : list string) (es : list Edge) (k : Z)
    (order_field : option (option string)) : SolveRequest :=
  {| nodes := ns; edges := es; k_colors := k;
     order := default (Some "degree") order_field |}.

(** A partial assignment [Dict[str, int]], seen as a value. *)
Abbreviation assignment := (gmap string Z).

(** [Step].  The field [partial] holds a dictionary; [D] is what stands for
    it: the dictionary's value ([assignment]) in the value-level model, a
    reference to a heap object in the store-level model. *)
Record Step (D : Type) := mkStep {
  action : string;
  node : string;
  color : option Z;
  partial : option D
}.
Arguments mkStep {D} _ _ _ _.
Arguments action {D} _.
Arguments node {D} _.
Arguments color {D} _.
Arguments partial {D} _.

Record SolveResponse := {
  ok : bool;
  colors : assignment;
  steps : list (Step assignment);
  message : string
}.

(** ** Backtracking *)

(** [if v not in adj[u]: adj[u].append(v)].  The only caller, [add_edge],
    has just tested [u in adj], so the [None] branch is never taken. *)
Definition add_neighbor (adj : dict (list string)) (u v : string)
    : dict (list string) :=
  match dict_get adj u with
  | Some ns => if bool_decide (v ∈ ns) then adj else dict_set adj u (ns ++ [v])
  | None => adj
  end.

(** Body of the loop [for e in edges] of [build_adj]. *)
Definition add_edge (adj : dict (list string)) (e : Edge) : dict (list string) :=
  if dict_mem adj (src e) && dict_mem adj (dst e) && bool_decide (src e ≠ dst e)
  then add_neighbor (add_neighbor adj (src e) (dst e)) (dst e) (src e)
  else adj.

(** [{u: [] for u in nodes}] *)
Definition init_adj (nodes : list string) : dict (list string) :=
  foldl (λ d u, dict_set d u []) [] nodes.

Definition build_adj (nodes : list string) (edges : list Edge)
    : dict (list string) :=
  let adj := init_adj nodes in
  foldl add_edge adj edges.

(** Python's [sorted(xs, key=f, reverse=True)]: a stable sort by decreasing
    key.  [insert_desc] puts [x] after the elements of larger key and before
    those of equal or smaller key, all of which come later in the input. *)
Fixpoint insert_desc {A} (key : A → nat) (x : A) (l : list A) : list A :=
  match l with
  | [] => [x]
  | y :: l' =>
      if (key x <? key y)%nat then y :: insert_desc key x l' else x :: y :: l'
  end.

Definition sorted_desc {A} (key : A → nat) (l : list A) : list A :=
  foldr (insert_desc key) [] l.

(** [len(adj[u])] for a key [u] of [adj]. *)
Definition degree (adj : dict (list string)) (u : string) : nat :=
  match dict_get adj u with Some ns => length ns | None => 0%nat end.

Definition order_nodes (adj : dict (list string)) (order : string)
    : list string :=
  if decide (order = "degree")
  then sorted_desc (degree adj) (dict_keys adj)
  else dict_keys adj.

Definition compatible (u : string) (color : Z) (colors : assignment)
    (adj : dict (list string)) : option bool :=
  ns ← dict_get adj u;
  Some (forallb (λ v, negb (default (-1) (colors !! v) =? color)) ns).

(** [range(k)] *)
Definition range (k : Z) : list Z := Z.of_nat <$> seq 0 (Z.to_nat k).

(** The closure variables [colors] and [steps] of [color_graph_backtracking]. *)
Definition search_state : Type := assignment * list (Step assignment).

(** [steps.append(Step(action=a, node=u, color=c, partial=colors.copy()))] *)
Definition record (a : string) (u : string) (c : option Z)
    (st : search_state) : search_state :=
  (st.1, st.2 ++ [mkStep a u c (Some st.1)]).

(** [del colors[u]] *)
Definition del_color (u : string) (st : search_state) : option search_state :=
  match st.1 !! u with
  | Some _ => Some (delete u st.1, st.2)
  | None => None
  end.

Section Search.
Context (adj : dict (list string)) (k : Z).

(** The loop [for c in range(k)] of [backtrack(i)] for [u = nodes[i]];
    [rec] is the recursive call [backtrack(i + 1)] and [cs] the colours
    still to be tried. *)
Fixpoint color_loop (rec : search_state → option (bool * search_state))
    (u : string) (cs : list Z) (st : search_state)
    : option (bool * search_state) :=
  match cs with
  | [] => Some (false, st)
  | c :: cs' =>
      let st := record "try" u (Some c) st in
      b ← compatible u c st.1 adj;
      if b : bool then
        let st := record "assign" u (Some c) (<[u := c]> st.1, st.2) in
        r ← rec st;
        if r.1 : bool then Some (true, r.2)
        else
          st ← del_color u (record "backtrack" u (Some c) r.2);
          color_loop rec u cs' st
      else color_loop rec u cs' (record "conflict" u (Some c) st)
  end.

(** [backtrack(i)], with [rest = nodes[i:]]. *)
Fixpoint backtrack (rest : list string) (st : search_state)
    : option (bool * search_state) :=
  match rest with
  | [] => Some (true, record "done" "" None st)
  | u :: rest' => color_loop (backtrack rest') u (range k) st
  end.
End Search.

Definition color_graph_backtracking (adj : dict (list string)) (k : Z)
    (order : string) : option (bool * assignment * list (Step assignment)) :=
  let nodes := order_nodes adj order in
  r ← backtrack adj k nodes (∅, []);
  Some (r.1, if r.1 : bool then r.2.1 else ∅, r.2.2).

(** ** Endpoint *)

(** [req.order or "degree"] *)
Definition order_or_degree (o : option string) : string :=
  match o with
  | None => "degree"
  | Some s => if decide (s = "") then "degree" else s
  end.

Definition solve (req : SolveRequest) : option SolveResponse :=
  if negb ((2 <=? k_colors req) && (k_colors req <=? 5)) then
    Some {| ok := false; colors := ∅; steps := [];
            message := "k_colors debe estar entre 2 y 5." |}
  else if bool_decide (nodes req = []) then
    Some {| ok := false; colors := ∅; steps := [];
            message := "Debes enviar nodos." |}
  else
    let adj := build_adj (nodes req) (edges req) in
    r ← color_graph_backtracking adj (k_colors req) (order_or_degree (order req));
    let '(ok, colors, steps) := r in
    Some {| ok := ok; colors := colors; steps := steps;
            message := if ok then "Solución encontrada."
                       else "No existe coloreo con k colores." |}.


(** ** Store-level model of the search

    In the source, [colors] names one dictionary object that [backtrack]
    updates in place, and every [Step] holds a reference to a dictionary
    object.  Here the objects live in a [heap] (a list indexed by address),
    [live] is the address of [colors], [colors.copy()] allocates a new
    object, and a step stores the address it was given. *)

Abbreviation loc := nat.
Abbreviation heap := (list assignment).
Definition store_state : Type := heap * list (Step loc).

Section StoreSearch.
Context (adj : dict (list string)) (k : Z) (live : loc).

(** [steps.append(Step(action=a, node=u, color=c, partial=colors.copy()))] *)
Definition record_s (a : string) (u : string) (c : option Z)
    (st : store_state) : option store_state :=
  d ← st.1 !! live;
  Some (st.1 ++ [d], st.2 ++ [mkStep a u c (Some (length st.1))]).

(** [colors[u] = c] *)
Definition set_color_s (u : string) (c : Z) (st : store_state)
    : option store_state :=
  d ← st.1 !! live;
  Some (<[live := <[u := c]> d]> st.1, st.2).

(** [del colors[u]] *)
Definition del_color_s (u : string) (st : store_state) : option store_state :=
  d ← st.1 !! live;
  _ ← d !! u;
  Some (<[live := delete u d]> st.1, st.2).

Definition compatible_s (u : string) (c : Z) (st : store_state) : option bool :=
  d ← st.1 !! live;
  compatible u c d adj.

Fixpoint color_loop_s (rec : store_state → option (bool * store_state))
    (u : string) (cs : list Z) (st : store_state)
    : option (bool * store_state) :=
  match cs with
  | [] => Some (false, st)
  | c :: cs' =>
      st ← record_s "try" u (Some c) st;
      b ← compatible_s u c st;
      if b : bool then
        st ← set_color_s u c st;
        st ← record_s "assign" u (Some c) st;
        r ← rec st;
        if r.1 : bool then Some (true, r.2)
        else
          st ← record_s "backtrack" u (Some c) r.2;
          st ← del_color_s u st;
          color_loop_s rec u cs' st
      else
        st ← record_s "conflict" u (Some c) st;
        color_loop_s rec u cs' st
  end.

Fixpoint backtrack_s (rest : list string) (st : store_state)
    : option (bool * store_state) :=
  match rest with
  | [] => st ← record_s "done" "" None st; Some (true, st)
  | u :: rest' => color_loop_s (backtrack_s rest') u (range k) st
  end.
End StoreSearch.

(** [colors = {}] is allocated at address [0]; the result is the flag, the
    address of the returned dictionary ([colors] itself, or a new empty
    one), the steps, and the heap in which their references are read. *)
Definition color_graph_backtracking_s (adj : dict (list string)) (k : Z)
    (order : string) : option (bool * loc * list (Step loc) * heap) :=
  let nodes := order_nodes adj order in
  r ← backtrack_s adj k 0%nat nodes ([∅], []);
  Some (if r.1 : bool then (true, 0%nat, r.2.2, r.2.1)
        else (false, length r.2.1, r.2.2, r.2.1 ++ [∅])).

(** What a step shows to whoever reads it in heap [h]. *)
Definition read_step (h : heap) (x : Step loc) : Step assignment :=
  mkStep (action x) (node x) (color x) (l ← partial x; h !! l).

(** The store-level state seen as a value-level one. *)
Definition read_state (live : loc) (st : store_state) : option search_state :=
  d ← st.1 !! live; Some (d, read_step st.1 <$> st.2).

(** A store-level state is well formed when [live] is allocated and every
    recorded step refers to an allocated object other than [live]. *)
Definition store_wf (live : loc) (st : store_state) : Prop :=
  (live < length st.1)%nat ∧
  ∀ x, x ∈ st.2 → ∃ l, partial x = Some l ∧ l ≠ live ∧ (l < length st.1)%nat.

(** The store-level state [hst] stands for the value-level state [st]. *)
Definition sim (live : loc) (hst : store_state) (st : search_state) : Prop :=
  store_wf live hst ∧ read_state live hst = Some st.

(** From [hst] to [hst']: the heap has only grown, every object other than
    [live] that existed is unchanged, and the steps have only been added to. *)
Definition frame (live : loc) (hst hst' : store_state) : Prop :=
  (length hst.1 ≤ length hst'.1)%nat ∧
  (∀ l, l ≠ live → (l < length hst.1)%nat → hst'.1 !! l = hst.1 !! l) ∧
  ∃ ys, hst'.2 = hst.2 ++ ys.

(** The two models agree on a result: both raise, or both return the same
    flag with matching states, the store-level one within the frame. *)
Definition sim_result (live : loc) (hst : store_state)
    (o_s : option (bool * store_state)) (o_v : option (bool * search_state))
    : Prop :=
  match o_s, o_v with
  | Some (r, hst'), Some (r', st') =>
      r = r' ∧ sim live hst' st' ∧ frame live hst hst'
  | None, None => True
  | _, _ => False
  end.

(** An assign step shows its vertex with its colour. *)
Definition assign_shows (x : Step assignment) : Prop :=
  action x = "assign" →
  ∃ c d, color x = Some c ∧ partial x = Some d ∧ d !! node x = Some c.

(** ** Specification vocabulary *)

(** [v] is listed among the neighbours of [u]. *)
Definition adjacent (adj : dict (list string)) (u v : string) : Prop :=
  ∃ ns, dict_get adj u = Some ns ∧ v ∈ ns.

(** No two adjacent vertices carry the same colour in [p]. *)
Definition proper (adj : dict (list string)) (p : assignment) : Prop :=
  ∀ u v c, adjacent adj u v → p !! u = Some c → p !! v ≠ Some c.

(** The graph has a proper colouring with colours in [[0, k)]. *)
Definition colorable (adj : dict (list string)) (k : Z) : Prop :=
  ∃ p : assignment,
    (∀ u, u ∈ dict_keys adj → ∃ c, p !! u = Some c ∧ 0 ≤ c < k) ∧ proper adj p.

(** Some neighbour of [u] is present in [p] with exactly colour [c]. *)
Definition conflicts (adj : dict (list string)) (p : assignment)
    (u : string) (c : Z) : Prop :=
  ∃ v, adjacent adj u v ∧ p !! v = Some c.

(** The adjacency structure [build_adj] is meant to produce: distinct keys,
    duplicate-free neighbour lists naming only keys, no self-loop, and a
    symmetric relation. *)
Record adj_ok (adj : dict (list string)) : Prop := {
  adj_keys_nodup : NoDup (dict_keys adj);
  adj_nbrs_nodup : ∀ u ns, dict_get adj u = Some ns → NoDup ns;
  adj_closed : ∀ u v, adjacent adj u v → v ∈ dict_keys adj;
  adj_irrefl : ∀ u, ¬ adjacent adj u u;
  adj_sym : ∀ u v, adjacent adj u v → adjacent adj v u
}.

(** The same edge given the other way round. *)
Definition flip_edge (e : Edge) : Edge := {| src := dst e; dst := src e |}.

(** [e] passes the filter of [build_adj]: both ends are vertices and differ. *)
Definition edge_kept (adj : dict (list string)) (e : Edge) : Prop :=
  src e ∈ dict_keys adj ∧ dst e ∈ dict_keys adj ∧ src e ≠ dst e.

(** Processing [e] can no longer change [adj]: the edge is filtered out, or
    each end already lists the other. *)
Definition edge_settled (adj : dict (list string)) (e : Edge) : Prop :=
  ¬ edge_kept adj e ∨
  (adjacent adj (src e) (dst e) ∧ adjacent adj (dst e) (src e)).

(** [tr] has a conflict step for vertex [u]. *)
Definition has_conflict (u : string) (tr : list (Step assignment)) : Prop :=
  ∃ x, x ∈ tr ∧ action x = "conflict" ∧ node x = u.

(** The transition algorithm of the search engine, as the specification
    words it: colours are taken from [0] upwards; each gives a [try] step
    on the assignment [p] the vertex was entered with, then either a
    [conflict] step on the same [p], or an [assign] step on [p] extended
    with [u ↦ c] followed by the exploration of the remaining vertices and,
    if that fails, a [backtrack] step still showing [u ↦ c].  The result is
    [Some q] for a success with final assignment [q] and [None] for an
    exhausted vertex. *)
Section Transition.
Context (adj : dict (list string)) (k : Z).

Inductive try_colors
    (sub : assignment → option assignment → list (Step assignment) → Prop)
    (u : string) (p : assignment)
    : Z → option assignment → list (Step assignment) → Prop :=
| try_exhausted c :
    k ≤ c → try_colors sub u p c None []
| try_conflict c res t :
    0 ≤ c < k → conflicts adj p u c →
    try_colors sub u p (c + 1) res t →
    try_colors sub u p c res
      (mkStep "try" u (Some c) (Some p)
         :: mkStep "conflict" u (Some c) (Some p) :: t)
| try_success c q t :
    0 ≤ c < k → ¬ conflicts adj p u c →
    sub (<[u := c]> p) (Some q) t →
    try_colors sub u p c (Some q)
      (mkStep "try" u (Some c) (Some p)
         :: mkStep "assign" u (Some c) (Some (<[u := c]> p)) :: t)
| try_backtrack c t res t' :
    0 ≤ c < k → ¬ conflicts adj p u c →
    sub (<[u := c]> p) None t →
    try_colors sub u p (c + 1) res t' →
    try_colors sub u p c res
      (mkStep "try" u (Some c) (Some p)
         :: mkStep "assign" u (Some c) (Some (<[u := c]> p))
         :: t ++ mkStep "backtrack" u (Some c) (Some (<[u := c]> p)) :: t').

Fixpoint explore (rest : list string)
    : assignment → option assignment → list (Step assignment) → Prop :=
  match rest with
  | [] => λ p res t, res = Some p ∧ t = [mkStep "done" "" None (Some p)]
  | u :: rest' => λ p, try_colors (explore rest') u p 0
  end.
End Transition.

(** What [backtrack] returns from colours [p] and steps [s] when the
    exploration has result [res] and trace [t]. *)
Definition outcome (p : assignment) (s : list (Step assignment))
    (res : option assignment) (t : list (Step assignment))
    : option (bool * search_state) :=
  match res with
  | Some q => Some (true, (q, s ++ t))
  | None => Some (false, (p, s ++ t))
  end.

(** The calls [backtrack(i)] made while [backtrack(0)] runs on [nodes]:
    the outermost call on all of [nodes] from the empty state, and, inside a
    call on [u :: rest] entered in state [st], the recursive call made for a
    colour [c] — the loop has gone through the colours [cs1] before [c]
    without success, reaching state [st1], and [c] is compatible there. *)
Inductive called (adj : dict (list string)) (k : Z) (nodes : list string)
    : list string → search_state → Prop :=
| called_top : called adj k nodes nodes (∅, [])
| called_rec u rest st cs1 c cs2 st1 :
    called adj k nodes (u :: rest) st →
    range k = cs1 ++ c :: cs2 →
    color_loop adj (backtrack adj k rest) u cs1 st = Some (false, st1) →
    compatible u c st1.1 adj = Some true →
    called adj k nodes rest
      (record "assign" u (Some c)
         (<[u := c]> st1.1, (record "try" u (Some c) st1).2)).

(** What holds on entry to every call of a run: the vertices still to be
    coloured are distinct vertices of the graph without a colour, and the
    colours committed so far are within range. *)
Definition call_inv (adj : dict (list string)) (k : Z)
    (rest : list string) (st : search_state) : Prop :=
  NoDup rest ∧
  (∀ u, u ∈ rest → u ∈ dict_keys adj ∧ st.1 !! u = None) ∧
  (∀ v c, st.1 !! v = Some c → 0 ≤ c < k).

(** The colours of the [try] steps for vertex [u] in [tr], in trace order. *)
Definition tries_of (u : string) (tr : list (Step assignment)) : list Z :=
  omap (λ x, if bool_decide (action x = "try" ∧ node x = u)
             then color x else None) tr.

(** Boolean form of [has_conflict]. *)
Definition has_conflictb (u : string) (tr : list (Step assignment)) : bool :=
  existsb (λ x, bool_decide (action x = "conflict") && bool_decide (node x = u)) tr.

(** One dictionary object per recorded step, allocated in trace order
    after the live one at address [0]. *)
Definition alloc_inv (hst : store_state) : Prop :=
  length hst.1 = S (length hst.2) ∧
  partial <$> hst.2 = Some <$> seq 1 (length hst.2).

(** ** Vocabulary for further properties *)

(** [q] colours every vertex of the graph within range, properly. *)
Definition coloring (adj : dict (list string)) (k : Z) (q : assignment) : Prop :=
  (∀ u, u ∈ dict_keys adj → ∃ c, q !! u = Some c ∧ 0 ≤ c < k) ∧ proper adj q.

(** Exchange of the colours [a] and [b]. *)
Definition swap_color (a b c : Z) : Z :=
  if decide (c = a) then b else if decide (c = b) then a else c.

(** The elements of [l] in order, each kept at its first occurrence only. *)
Fixpoint first_occurrences (l : list string) : list string :=
  match l with
  | [] => []
  | x :: l' => x :: filter (λ y, y ≠ x) (first_occurrences l')
  end.

(** The other end of [e] seen from [u], when [e] joins [u] to a different
    vertex and both ends are among [ns]. *)
Definition other_end (ns : list string) (u : string) (e : Edge) : option string :=
  if bool_decide (src e ∈ ns ∧ dst e ∈ ns ∧ src e ≠ dst e) then
    if decide (src e = u) then Some (dst e)
    else if decide (dst e = u) then Some (src e) else None
  else None.

(** Number of steps of [tr] with action [a]. *)
Definition count_action (a : string) (tr : list (Step assignment)) : nat :=
  length (filter (λ x, action x = a) tr).

(** A bound on the number of steps recorded for [n] vertices. *)
Fixpoint trace_bound (k : Z) (n : nat) : nat :=
  match n with
  | O => 1
  | S n' => Z.to_nat k * (trace_bound k n' + 3)
  end.

(** The shape of a step recorded while the vertices [vs] are explored with
    [k] colours: it carries a snapshot, and is either the [done] step, with
    empty vertex and no colour, or a step of one of the four other actions,
    for a vertex of [vs] and a colour of the range. *)
Definition step_ok (k : Z) (vs : list string) (x : Step assignment) : Prop :=
  is_Some (partial x) ∧
  ((action x = "done" ∧ node x = "" ∧ color x = None) ∨
   (action x ∈ ["try"; "assign"; "conflict"; "backtrack"] ∧ node x ∈ vs ∧
    ∃ c, color x = Some c ∧ 0 ≤ c < k)).

(** How the snapshot of a step stands to its vertex and colour: a [try]
    or [conflict] step shows the vertex uncoloured, a [conflict] step also
    shows a neighbour holding the colour, an [assign] or [backtrack] step
    shows the vertex with the colour. *)
Definition snapshot_ok (adj : dict (list string)) (x : Step assignment) : Prop :=
  ∀ d, partial x = Some d →
    (action x = "try" → d !! node x = None) ∧
    (action x = "conflict" →
     d !! node x = None ∧
     ∃ v c, color x = Some c ∧ adjacent adj (node x) v ∧ d !! v = Some c) ∧
    (action x = "assign" ∨ action x = "backtrack" →
     ∃ c, color x = Some c ∧ d !! node x = Some c).

(** Boolean check of [coloring], entry by entry of the graph. *)
Definition coloringb (adj : dict (list string)) (k : Z) (q : assignment) : bool :=
  forallb (λ e : string * list string,
             match q !! e.1 with
             | Some c =>
                 (0 <=? c) && (c <? k) &&
                 forallb (λ v, negb (bool_decide (q !! v = Some c))) e.2
             | None => false
             end) adj.

(** ** Concrete requests used below *)

Definition mkEdge (a b : string) : Edge := {| src := a; dst := b |}.

(** The triangle A-B-C with two colours: not colourable. *)
Definition triangle2 : SolveRequest :=
  {| nodes := ["A"; "B"; "C"];
     edges := [mkEdge "A" "B"; mkEdge "B" "C"; mkEdge "A" "C"];
     k_colors := 2; order := Some "natural" |}.

(** The triangle with three colours. *)
Definition triangle3 : SolveRequest :=
  {| nodes := ["A"; "B"; "C"];
     edges := [mkEdge "A" "B"; mkEdge "B" "C"; mkEdge "A" "C"];
     k_colors := 3; order := None |}.

(** The single edge A-B with two colours. *)
Definition single_edge : SolveRequest :=
  {| nodes := ["A"; "B"]; edges := [mkEdge "A" "B"];
     k_colors := 2; order := None |}.

(** Four vertices without edges, in input order. *)
Definition four_isolated : SolveRequest :=
  {| nodes := ["A"; "B"; "C"; "D"]; edges := [];
     k_colors := 2; order := Some "natural" |}.

(** A request with too few colours. *)
Definition no_colors : SolveRequest :=
  {| nodes := ["A"; "B"]; edges := [mkEdge "A" "B"];
     k_colors := 0; order := None |}.

(** The cycle A-B-C-D: every vertex has two neighbours. *)
Definition cycle4 : dict (list string) :=
  build_adj ["A"; "B"; "C"; "D"]
    [mkEdge "A" "B"; mkEdge "B" "C"; mkEdge "C" "D"; mkEdge "D" "A"].

(** The triangle again: vertices and edges in another order, with
    repetitions, every edge written the other way round. *)
Definition triangle3_shuffled : SolveRequest :=
  {| nodes := ["C"; "B"; "A"; "B"];
     edges := [mkEdge "C" "A"; mkEdge "B" "A"; mkEdge "C" "B"; mkEdge "B" "A"];
     k_colors := 3; order := Some "natural" |}.

(** The path B-A, C-B on the vertices of the triangle, with four colours. *)
Definition two_edges4 : SolveRequest :=
  {| nodes := ["A"; "B"; "C"];
     edges := [mkEdge "B" "A"; mkEdge "C" "B"];
     k_colors := 4; order := None |}.

(** The path A-B-C: the middle vertex has two neighbours, the ends one. *)
Definition path3 : dict (list string) :=
  build_adj ["A"; "B"; "C"] [mkEdge "A" "B"; mkEdge "B" "C"].

(** A request for the path with two colours and a given [order] field. *)
Definition path3_request (o : option string) : SolveRequest :=
  {| nodes := ["A"; "B"; "C"];
     edges := [mkEdge "A" "B"; mkEdge "B" "C"];
     k_colors := 2; order := o |}.

(** Membership in a list written out. *)
Ltac in_list :=
  repeat first [apply list_elem_of_here | apply list_elem_of_further].

(** * Properties *)

(** ** Dictionaries *)

Section DictFacts.
Context {V : Type}.
Implicit Types (d : dict V) (k : string) (v : V).

Lemma dict_mem_true d k : dict_mem d k = true ↔ is_Some (dict_get d k).
Proof.
  unfold dict_mem. destruct (dict_get d k); split; intros H; eauto.
  - discriminate.
  - by destruct H.
Qed.

Lemma dict_get_keys d k : is_Some (dict_get d k) ↔ k ∈ dict_keys d.
Proof.
  unfold dict_keys. induction d as [|[k' v'] d IH]; simpl.
  - split; [intros [? ?]; discriminate | intros H; inversion H].
  - destruct (decide (k' = k)) as [->|Hne].
    + split; [intros _; left | eauto].
    + rewrite IH. split; [by right |].
      intros H. apply elem_of_cons in H as [?|?]; [congruence | done].
Qed.

Lemma dict_get_None_keys d k : dict_get d k = None ↔ k ∉ dict_keys d.
Proof. rewrite <- dict_get_keys, eq_None_not_Some. tauto. Qed.

Lemma dict_get_set d k v k' :
  dict_get (dict_set d k v) k' = if decide (k = k') then Some v else dict_get d k'.
Proof.
  induction d as [|[k0 v0] d IH]; simpl.
  - done.
  - destruct (decide (k0 = k)) as [->|Hne]; simpl.
    + destruct (decide (k = k')); done.
    + rewrite IH. destruct (decide (k0 = k')), (decide (k = k')); congruence.
Qed.

Lemma dict_get_set_eq d k v : dict_get (dict_set d k v) k = Some v.
Proof. rewrite dict_get_set. by rewrite decide_True. Qed.

Lemma dict_get_set_ne d k v k' :
  k ≠ k' → dict_get (dict_set d k v) k' = dict_get d k'.
Proof. intros. rewrite dict_get_set. by rewrite decide_False. Qed.

(** Assigning to an existing key leaves the key order alone. *)
Lemma dict_keys_set_present d k v :
  k ∈ dict_keys d → dict_keys (dict_set d k v) = dict_keys d.
Proof.
  unfold dict_keys. induction d as [|[k0 v0] d IH]; simpl; intros H.
  - inversion H.
  - destruct (decide (k0 = k)) as [->|Hne]; simpl; [done |].
    f_equal. apply IH. apply elem_of_cons in H as [?|?]; [congruence | done].
Qed.

(** Assigning to a new key appends it. *)
Lemma dict_keys_set_absent d k v :
  k ∉ dict_keys d → dict_keys (dict_set d k v) = dict_keys d ++ [k].
Proof.
  unfold dict_keys. induction d as [|[k0 v0] d IH]; simpl; intros H.
  - done.
  - apply not_elem_of_cons in H as [H1 H2].
    rewrite decide_False by done. simpl. f_equal. by apply IH.
Qed.

(** Writing back the value a key already has changes nothing. *)
Lemma dict_set_same d k v : dict_get d k = Some v → dict_set d k v = d.
Proof.
  induction d as [|[k0 v0] d IH]; simpl; [done |].
  destruct (decide (k0 = k)) as [->|Hne]; intros H.
  - congruence.
  - f_equal. by apply IH.
Qed.

Lemma dict_set_set d k v v' : dict_set (dict_set d k v) k v' = dict_set d k v'.
Proof.
  induction d as [|[k0 v0] d IH]; simpl.
  - by rewrite decide_True.
  - destruct (decide (k0 = k)) as [->|Hne]; simpl.
    + by rewrite decide_True.
    + rewrite decide_False by done. by rewrite IH.
Qed.

(** Assignments to two distinct existing keys commute. *)
Lemma dict_set_comm d k1 v1 k2 v2 :
  k1 ≠ k2 → k1 ∈ dict_keys d → k2 ∈ dict_keys d →
  dict_set (dict_set d k1 v1) k2 v2 = dict_set (dict_set d k2 v2) k1 v1.
Proof.
  unfold dict_keys. intros Hne.
  induction d as [|[k0 v0] d IH]; simpl; intros H1 H2.
  - inversion H1.
  - destruct (decide (k0 = k1)) as [E1|Hne1], (decide (k0 = k2)) as [E2|Hne2];
      simpl; repeat case_decide; try congruence.
    f_equal.
      apply elem_of_cons in H1 as [?|?]; [congruence |].
      apply elem_of_cons in H2 as [?|?]; [congruence |]. by apply IH.
Qed.
End DictFacts.

(** ** Graph construction *)

Lemma init_adj_acc (d : dict (list string)) ns u :
  dict_get (foldl (λ d u, dict_set d u []) d ns) u =
    if bool_decide (u ∈ ns) then Some [] else dict_get d u.
Proof.
  revert d. induction ns as [|n ns IH]; intros d; simpl.
  - done.
  - rewrite IH. rewrite dict_get_set.
    destruct (decide (n = u)) as [->|Hne].
    + rewrite (bool_decide_eq_true_2 (u ∈ u :: ns)) by left.
      by destruct (bool_decide (u ∈ ns)).
    + destruct (bool_decide (u ∈ ns)) eqn:E.
      * apply bool_decide_eq_true_1 in E.
        rewrite bool_decide_eq_true_2; [done | by right].
      * apply bool_decide_eq_false_1 in E.
        rewrite bool_decide_eq_false_2; [done |].
        intros H. apply elem_of_cons in H as [?|?]; congruence.
Qed.

Lemma init_adj_get ns u :
  dict_get (init_adj ns) u = if bool_decide (u ∈ ns) then Some [] else None.
Proof. apply init_adj_acc. Qed.

Lemma init_adj_keys_acc (d : dict (list string)) ns :
  NoDup (dict_keys d) → NoDup ns → (∀ u, u ∈ ns → u ∉ dict_keys d) →
  dict_keys (foldl (λ d u, dict_set d u []) d ns) = dict_keys d ++ ns.
Proof.
  revert d. induction ns as [|n ns IH]; intros d Hd Hns Hfresh; simpl.
  - by rewrite app_nil_r.
  - apply NoDup_cons in Hns as [Hn Hns].
    assert (Hk : dict_keys (dict_set d n []) = dict_keys d ++ [n]).
    { apply dict_keys_set_absent, Hfresh. left. }
    rewrite IH, Hk.
    + by rewrite <- app_assoc.
    + rewrite Hk. apply NoDup_app. split_and!; [done | | apply NoDup_singleton].
      intros x Hx Hx'. apply list_elem_of_singleton in Hx' as ->.
      by apply (Hfresh n); [left |].
    + done.
    + intros u Hu. rewrite Hk. intros H. apply elem_of_app in H as [H|H].
      * by apply (Hfresh u); [right |].
      * apply list_elem_of_singleton in H as ->. done.
Qed.

(** With distinct vertices, the keys of the graph are the vertex list. *)
Lemma init_adj_keys ns : NoDup ns → dict_keys (init_adj ns) = ns.
Proof.
  intros H. unfold init_adj. rewrite init_adj_keys_acc; try done.
  - apply NoDup_nil_2.
  - intros u _ Hu. inversion Hu.
Qed.

Lemma dict_set_keys_NoDup {V} (d : dict V) k v :
  NoDup (dict_keys d) → NoDup (dict_keys (dict_set d k v)).
Proof.
  intros H. destruct (decide (k ∈ dict_keys d)).
  - by rewrite dict_keys_set_present.
  - rewrite dict_keys_set_absent by done.
    apply NoDup_app. split_and!; [done | | apply NoDup_singleton].
    intros x Hx Hx'. apply list_elem_of_singleton in Hx' as ->. done.
Qed.

Lemma init_adj_keys_NoDup ns : NoDup (dict_keys (init_adj ns)).
Proof.
  unfold init_adj.
  assert (H : NoDup (dict_keys ([] : dict (list string)))) by apply NoDup_nil_2.
  revert H. generalize ([] : dict (list string)).
  induction ns as [|n ns IH]; intros d Hd; simpl; [done |].
  apply IH. by apply dict_set_keys_NoDup.
Qed.

Lemma init_adj_keys_elem ns u : u ∈ dict_keys (init_adj ns) ↔ u ∈ ns.
Proof.
  rewrite <- dict_get_keys, init_adj_get.
  destruct (bool_decide (u ∈ ns)) eqn:E.
  - apply bool_decide_eq_true_1 in E. split; eauto.
  - apply bool_decide_eq_false_1 in E. split; [intros [? ?]; discriminate | done].
Qed.

Lemma add_neighbor_keys adj u v :
  dict_keys (add_neighbor adj u v) = dict_keys adj.
Proof.
  unfold add_neighbor. destruct (dict_get adj u) as [ns|] eqn:E; [|done].
  case_bool_decide; [done |].
  apply dict_keys_set_present, dict_get_keys. by rewrite E.
Qed.

Lemma add_edge_keys adj e : dict_keys (add_edge adj e) = dict_keys adj.
Proof.
  unfold add_edge.
  destruct (dict_mem adj (src e) && dict_mem adj (dst e)
            && bool_decide (src e ≠ dst e)); [|done].
  by rewrite !add_neighbor_keys.
Qed.

Lemma build_adj_keys ns es : dict_keys (build_adj ns es) = dict_keys (init_adj ns).
Proof.
  unfold build_adj. simpl. generalize (init_adj ns).
  induction es as [|e es IH]; intros d; simpl; [done |].
  by rewrite IH, add_edge_keys.
Qed.

Lemma build_adj_keys_elem ns es u : u ∈ dict_keys (build_adj ns es) ↔ u ∈ ns.
Proof. by rewrite build_adj_keys, init_adj_keys_elem. Qed.

(** The guard of [add_edge] is the proposition [edge_kept]. *)
Lemma add_edge_guard adj e :
  dict_mem adj (src e) && dict_mem adj (dst e) && bool_decide (src e ≠ dst e)
    = true ↔ edge_kept adj e.
Proof.
  unfold edge_kept.
  rewrite !andb_true_iff, !dict_mem_true, !dict_get_keys, bool_decide_eq_true.
  tauto.
Qed.

Lemma add_edge_dropped adj e : ¬ edge_kept adj e → add_edge adj e = adj.
Proof.
  intros H. unfold add_edge.
  destruct (dict_mem adj (src e) && dict_mem adj (dst e)
            && bool_decide (src e ≠ dst e)) eqn:E; [|done].
  by apply add_edge_guard in E.
Qed.

Lemma add_neighbor_get adj u v w :
  dict_get (add_neighbor adj u v) w =
    match dict_get adj u with
    | Some ns =>
        if decide (u = w)
        then Some (if bool_decide (v ∈ ns) then ns else ns ++ [v])
        else dict_get adj w
    | None => dict_get adj w
    end.
Proof.
  unfold add_neighbor. destruct (dict_get adj u) as [ns|] eqn:E; [|done].
  case_bool_decide.
  - case_decide; [by subst |done].
  - by rewrite dict_get_set.
Qed.

Lemma add_neighbor_adjacent adj u v a b :
  adjacent (add_neighbor adj u v) a b ↔
    adjacent adj a b ∨ (u ∈ dict_keys adj ∧ a = u ∧ b = v).
Proof.
  unfold adjacent. setoid_rewrite add_neighbor_get.
  rewrite <- dict_get_keys.
  destruct (dict_get adj u) as [ns|] eqn:E.
  - destruct (decide (u = a)) as [->|Hne].
    + split.
      * intros (ns' & [= <-] & Hb). case_bool_decide; [left; eauto |].
        apply elem_of_app in Hb as [Hb|Hb]; [left; eauto |].
        apply list_elem_of_singleton in Hb as ->. right. eauto.
      * intros [(ns' & Hns' & Hb)|(_ & _ & ->)].
        -- rewrite E in Hns'. injection Hns' as <-. eexists; split; [done |].
           case_bool_decide; [done |]. apply elem_of_app. by left.
        -- eexists; split; [done |]. case_bool_decide; [done |].
           apply elem_of_app. right. by apply list_elem_of_singleton.
    + split; [by left |]. intros [?|(_ & ? & _)]; [done | congruence].
  - split; [by left |]. intros [?|([? ?] & _)]; [done | discriminate].
Qed.

(** The neighbour relation after one edge: what it was, plus the edge in
    both directions when it passes the filter. *)
Lemma add_edge_adjacent adj e a b :
  adjacent (add_edge adj e) a b ↔
    adjacent adj a b ∨
    (edge_kept adj e ∧ ((a = src e ∧ b = dst e) ∨ (a = dst e ∧ b = src e))).
Proof.
  unfold add_edge.
  destruct (dict_mem adj (src e) && dict_mem adj (dst e)
            && bool_decide (src e ≠ dst e)) eqn:G.
  - apply add_edge_guard in G. pose proof G as (Hs & Hd & Hne).
    rewrite !add_neighbor_adjacent, add_neighbor_keys. unfold edge_kept. tauto.
  - split; [by left |]. intros [?|[K _]]; [done |].
    apply add_edge_guard in K. congruence.
Qed.

Lemma add_edge_edge_kept adj e e' : edge_kept (add_edge adj e) e' ↔ edge_kept adj e'.
Proof. unfold edge_kept. by rewrite add_edge_keys. Qed.

(** The neighbour relation of the built graph, read off the request: [u]
    and [v] are distinct vertices joined by some edge of the list, in
    either direction. *)
Lemma build_adj_adjacent ns es a b :
  adjacent (build_adj ns es) a b ↔
    a ∈ ns ∧ b ∈ ns ∧ a ≠ b ∧
    ∃ e, e ∈ es ∧ ((a = src e ∧ b = dst e) ∨ (a = dst e ∧ b = src e)).
Proof.
  unfold build_adj. simpl.
  assert (H0 : ∀ a b, ¬ adjacent (init_adj ns) a b).
  { intros x y (l & Hl & Hy). rewrite init_adj_get in Hl.
    case_bool_decide; [|done]. injection Hl as <-. inversion Hy. }
  assert (Hk : ∀ u, u ∈ dict_keys (init_adj ns) ↔ u ∈ ns)
    by apply init_adj_keys_elem.
  revert H0 Hk. generalize (init_adj ns) as d.
  cut (∀ d : dict (list string),
         (∀ u, u ∈ dict_keys d ↔ u ∈ ns) →
         adjacent (foldl add_edge d es) a b ↔
           adjacent d a b ∨
           (a ∈ ns ∧ b ∈ ns ∧ a ≠ b ∧
            ∃ e, e ∈ es ∧ ((a = src e ∧ b = dst e) ∨ (a = dst e ∧ b = src e)))).
  { intros C d H0 Hk. rewrite (C d Hk). specialize (H0 a b). tauto. }
  induction es as [|e es IH]; intros d Hk; simpl.
  - split; [by left |]. intros [?|(_ & _ & _ & e & He & _)]; [done | inversion He].
  - rewrite IH by (intros u; by rewrite add_edge_keys).
    rewrite add_edge_adjacent. unfold edge_kept. rewrite !Hk.
    split.
    + intros [[?|(K & Hab)]|(? & ? & ? & e' & He' & Hab)].
      * by left.
      * right. destruct K as (? & ? & ?).
        destruct Hab as [[-> ->]|[-> ->]]; split_and!; try done;
          exists e; (split; [left | tauto]).
      * right. split_and!; try done. exists e'. split; [by right | done].
    + intros [?|(Ha & Hb & Hne & e' & He' & Hab)]; [by left; left |].
      apply elem_of_cons in He' as [->|He'].
      * left. right. destruct Hab as [[-> ->]|[-> ->]];
          (split; [split_and!; by auto | auto]).
      * right. split_and!; try done. by exists e'.
Qed.

Lemma add_neighbor_present adj u v : adjacent adj u v → add_neighbor adj u v = adj.
Proof.
  intros (ns & Hns & Hv). unfold add_neighbor. rewrite Hns.
  by rewrite bool_decide_eq_true_2.
Qed.

Lemma add_edge_settled_id adj e : edge_settled adj e → add_edge adj e = adj.
Proof.
  intros [H|[H1 H2]]; [by apply add_edge_dropped |].
  unfold add_edge.
  destruct (dict_mem adj (src e) && dict_mem adj (dst e)
            && bool_decide (src e ≠ dst e)); [|done].
  rewrite (add_neighbor_present adj (src e)) by done.
  by apply add_neighbor_present.
Qed.

Lemma add_edge_settles adj e : edge_settled (add_edge adj e) e.
Proof.
  destruct (decide (edge_kept adj e)) as [K|K].
  - right. rewrite !add_edge_adjacent. split; right; auto.
  - left. by rewrite add_edge_edge_kept.
Qed.

Lemma edge_settled_add_edge adj e e' :
  edge_settled adj e → edge_settled (add_edge adj e') e.
Proof.
  intros [H|[H1 H2]].
  - left. by rewrite add_edge_edge_kept.
  - right. rewrite !add_edge_adjacent. auto.
Qed.

Lemma edge_settled_foldl adj e es :
  edge_settled adj e → edge_settled (foldl add_edge adj es) e.
Proof.
  revert adj. induction es as [|e' es IH]; intros adj H; simpl; [done |].
  by apply IH, edge_settled_add_edge.
Qed.

Lemma edge_settled_flip adj e : edge_settled adj (flip_edge e) ↔ edge_settled adj e.
Proof. unfold edge_settled, edge_kept, flip_edge; simpl. intuition. Qed.

Lemma add_neighbor_comm adj u1 v1 u2 v2 :
  u1 ≠ u2 →
  add_neighbor (add_neighbor adj u1 v1) u2 v2 =
    add_neighbor (add_neighbor adj u2 v2) u1 v1.
Proof.
  intros Hne.
  unfold add_neighbor at 1 3. rewrite !add_neighbor_get.
  destruct (dict_get adj u1) as [n1|] eqn:E1, (dict_get adj u2) as [n2|] eqn:E2;
    rewrite ?decide_False by done; rewrite ?E1, ?E2; try done;
    unfold add_neighbor; rewrite ?E1, ?E2;
    repeat case_bool_decide; try done.
  symmetry. apply dict_set_comm; [done | |]; apply dict_get_keys; by eauto.
Qed.

(** The direction in which an edge is written never matters. *)
Lemma add_edge_flip adj e : add_edge adj (flip_edge e) = add_edge adj e.
Proof.
  unfold add_edge, flip_edge; simpl.
  destruct (dict_mem adj (src e)), (dict_mem adj (dst e)); simpl; try done.
  destruct (decide (src e = dst e)) as [E|Hne].
  - rewrite !bool_decide_eq_false_2; [done | | ]; intros H; by apply H.
  - rewrite !bool_decide_eq_true_2 by done. by apply add_neighbor_comm.
Qed.

Lemma add_neighbor_nbrs_NoDup adj u v :
  (∀ w ns, dict_get adj w = Some ns → NoDup ns) →
  ∀ w ns, dict_get (add_neighbor adj u v) w = Some ns → NoDup ns.
Proof.
  intros H w ns. rewrite add_neighbor_get.
  destruct (dict_get adj u) as [l|] eqn:E; [|by apply H].
  case_decide; [|by apply H]. intros [= <-].
  case_bool_decide; [by eapply H |].
  apply NoDup_app. split_and!; [by eapply H | | apply NoDup_singleton].
  intros x Hx Hx'. apply list_elem_of_singleton in Hx' as ->. done.
Qed.

Lemma build_adj_nbrs_NoDup ns es u l :
  dict_get (build_adj ns es) u = Some l → NoDup l.
Proof.
  revert u l. unfold build_adj. simpl.
  assert (H0 : ∀ u l, dict_get (init_adj ns) u = Some l → NoDup l).
  { intros u l. rewrite init_adj_get. case_bool_decide; [|done].
    intros [= <-]. apply NoDup_nil_2. }
  revert H0. generalize (init_adj ns) as d.
  induction es as [|e es IH]; intros d H0; simpl; [done |].
  apply IH. unfold add_edge.
  destruct (dict_mem d (src e) && dict_mem d (dst e)
            && bool_decide (src e ≠ dst e)); [|done].
  by do 2 apply add_neighbor_nbrs_NoDup.
Qed.

(** Every graph handed to the search by [solve] is well formed. *)
Lemma build_adj_ok ns es : adj_ok (build_adj ns es).
Proof.
  split.
  - rewrite build_adj_keys. apply init_adj_keys_NoDup.
  - apply build_adj_nbrs_NoDup.
  - intros u v H. apply build_adj_adjacent in H as (_ & Hv & _).
    by apply build_adj_keys_elem.
  - intros u H. apply build_adj_adjacent in H as (_ & _ & Hne & _). done.
  - intros u v. rewrite !build_adj_adjacent.
    intros (? & ? & ? & e & ? & ?). split_and!; try done. exists e. tauto.
Qed.

(** ** Vertex ordering *)

Section SortedDesc.
Context {A : Type} (key : A → nat).

Lemma insert_desc_perm x l : insert_desc key x l ≡ₚ x :: l.
Proof.
  induction l as [|y l IH]; simpl; [done |].
  destruct (key x <? key y)%nat; [|done].
  rewrite IH. apply Permutation_swap.
Qed.

Lemma sorted_desc_perm l : sorted_desc key l ≡ₚ l.
Proof.
  induction l as [|x l IH]; simpl; [done |].
  by rewrite insert_desc_perm, IH.
Qed.

Lemma insert_desc_sorted x l :
  StronglySorted (λ a b, (key b ≤ key a)%nat) l →
  StronglySorted (λ a b, (key b ≤ key a)%nat) (insert_desc key x l).
Proof.
  induction l as [|y l IH]; simpl; intros H.
  - repeat constructor.
  - apply StronglySorted_cons in H as [Hy Hl].
    destruct (key x <? key y)%nat eqn:E.
    + apply Nat.ltb_lt in E. apply StronglySorted_cons. split; [|by apply IH].
      rewrite insert_desc_perm. constructor; [lia | done].
    + apply Nat.ltb_ge in E. apply StronglySorted_cons. split.
      * constructor; [done |].
        eapply Forall_impl; [exact Hy |]. simpl. intros z Hz. lia.
      * by apply StronglySorted_cons.
Qed.

Lemma sorted_desc_sorted l :
  StronglySorted (λ a b, (key b ≤ key a)%nat) (sorted_desc key l).
Proof.
  induction l as [|x l IH]; simpl; [constructor |].
  by apply insert_desc_sorted.
Qed.

(** Insertion never moves an element past one of equal key. *)
Lemma insert_desc_filter d x l :
  filter (λ y, key y = d) (insert_desc key x l) = filter (λ y, key y = d) (x :: l).
Proof.
  induction l as [|y l IH]; simpl; [done |].
  destruct (key x <? key y)%nat eqn:E; [|done].
  apply Nat.ltb_lt in E.
  rewrite (filter_cons _ y), IH, !filter_cons.
  repeat case_decide; try done; lia.
Qed.

(** Stability: the elements of any one key keep their input order. *)
Lemma sorted_desc_stable d l :
  filter (λ y, key y = d) (sorted_desc key l) = filter (λ y, key y = d) l.
Proof.
  induction l as [|x l IH]; simpl; [done |].
  by rewrite insert_desc_filter, !filter_cons, IH.
Qed.

Lemma sorted_desc_all_equal l :
  (∀ x y, x ∈ l → y ∈ l → key x = key y) → sorted_desc key l = l.
Proof.
  induction l as [|x l IH]; simpl; intros H; [done |].
  rewrite IH by (intros; apply H; by right).
  destruct l as [|y l]; simpl; [done |].
  rewrite (H x y); [| left | right; left].
  by rewrite Nat.ltb_irrefl.
Qed.
End SortedDesc.

Lemma order_nodes_perm adj order : order_nodes adj order ≡ₚ dict_keys adj.
Proof. unfold order_nodes. case_decide; [apply sorted_desc_perm | done]. Qed.

Lemma order_nodes_NoDup adj order :
  NoDup (dict_keys adj) → NoDup (order_nodes adj order).
Proof. intros H. by rewrite order_nodes_perm. Qed.

Lemma order_nodes_elem adj order u :
  u ∈ order_nodes adj order ↔ u ∈ dict_keys adj.
Proof. by rewrite order_nodes_perm. Qed.

(** ** Constraint checker *)

Lemma compatible_total adj u c p :
  u ∈ dict_keys adj → is_Some (compatible u c p adj).
Proof.
  intros H. apply dict_get_keys in H as [ns Hns].
  unfold compatible. rewrite Hns. simpl. eauto.
Qed.

Lemma forallb_false_elem {A} (f : A → bool) l :
  forallb f l = false ↔ ∃ x, x ∈ l ∧ f x = false.
Proof.
  induction l as [|y l IH]; simpl.
  - split; [done | intros (x & Hx & _); inversion Hx].
  - rewrite andb_false_iff, IH. split.
    + intros [H|(x & Hx & H)]; [exists y; split; [left | done] |].
      exists x. split; [by right | done].
    + intros (x & Hx & H). apply elem_of_cons in Hx as [->|Hx]; eauto.
Qed.

(** [compatible] answers [False] exactly when a neighbour holds the colour.
    Colours are never negative, so the default [-1] of [colors.get] stands
    for "not coloured". *)
Lemma compatible_false adj u c p b :
  0 ≤ c → compatible u c p adj = Some b → (b = false ↔ conflicts adj p u c).
Proof.
  intros Hc. unfold compatible, conflicts, adjacent.
  destruct (dict_get adj u) as [ns|] eqn:E; simpl; [|done].
  intros [= <-]. rewrite forallb_false_elem. split.
  - intros (v & Hv & Hx). exists v. split; [by eauto |].
    apply negb_false_iff, Z.eqb_eq in Hx.
    destruct (p !! v) as [cv|] eqn:Ev; simpl in Hx; [by subst | lia].
  - intros (v & (ns' & [= <-] & Hv) & Hp). exists v. split; [done |].
    rewrite Hp. simpl. by rewrite Z.eqb_refl.
Qed.

Lemma compatible_true adj u c p :
  0 ≤ c → compatible u c p adj = Some true → ¬ conflicts adj p u c.
Proof.
  intros Hc H K. by apply (compatible_false _ _ _ _ _ Hc H) in K.
Qed.

(** ** The search follows the transition algorithm *)

Section SearchFacts.
Context (adj : dict (list string)) (k : Z).

Lemma record_eq a u c p (s : list (Step assignment)) :
  record a u c (p, s) = (p, s ++ [mkStep a u c (Some p)]).
Proof. done. Qed.

(** One vertex: if the deeper call [rec] behaves as [sub] describes on
    every extension of [p] by a colour of [u], then the loop behaves as
    [try_colors] describes, from any colour [n] on. *)
Lemma color_loop_explore rec sub u p :
  u ∈ dict_keys adj →
  p !! u = None →
  (∀ c, ∃ res t, sub (<[u := c]> p) res t ∧
                 ∀ s, rec (<[u := c]> p, s) = outcome (<[u := c]> p) s res t) →
  ∀ m n, (n + m = Z.to_nat k)%nat →
    ∃ res t, try_colors adj k sub u p (Z.of_nat n) res t ∧
             ∀ s, color_loop adj rec u (Z.of_nat <$> seq n m) (p, s)
                  = outcome p s res t.
Proof.
  intros Hu Hp Hrec. induction m as [|m IH]; intros n Hn.
  - exists None, []. split; [constructor; lia |].
    intros s. simpl. by rewrite app_nil_r.
  - destruct (IH (S n)) as (res' & t' & Ht' & Hloop); [lia |].
    replace (Z.of_nat (S n)) with (Z.of_nat n + 1) in Ht' by lia.
    assert (Hc : 0 ≤ Z.of_nat n < k) by lia.
    destruct (compatible_total adj u (Z.of_nat n) p Hu) as [b Hb].
    simpl. setoid_rewrite Hb. simpl. destruct b.
    + pose proof (compatible_true _ _ _ _ (proj1 Hc) Hb) as Hnc.
      destruct (Hrec (Z.of_nat n)) as (res & t & Hsub & Hr).
      destruct res as [q|].
      * exists (Some q), (mkStep "try" u (Some (Z.of_nat n)) (Some p)
          :: mkStep "assign" u (Some (Z.of_nat n)) (Some (<[u:=Z.of_nat n]> p))
          :: t).
        split; [by constructor |].
        intros s. rewrite !record_eq, Hr. simpl.
        by rewrite <- !app_assoc.
      * exists res', (mkStep "try" u (Some (Z.of_nat n)) (Some p)
          :: mkStep "assign" u (Some (Z.of_nat n)) (Some (<[u:=Z.of_nat n]> p))
          :: t ++ mkStep "backtrack" u (Some (Z.of_nat n))
                    (Some (<[u:=Z.of_nat n]> p)) :: t').
        split; [by apply try_backtrack |].
        intros s. rewrite !record_eq, Hr. simpl.
        unfold del_color. simpl. rewrite lookup_insert_eq. simpl.
        rewrite delete_insert_id by done. rewrite Hloop.
        destruct res'; simpl; by rewrite <- !app_assoc.
    + assert (Hcf : conflicts adj p u (Z.of_nat n)).
      { by apply (compatible_false _ _ _ _ _ (proj1 Hc) Hb). }
      exists res', (mkStep "try" u (Some (Z.of_nat n)) (Some p)
          :: mkStep "conflict" u (Some (Z.of_nat n)) (Some p) :: t').
      split; [by constructor |].
      intros s. rewrite !record_eq, Hloop.
      destruct res'; simpl; by rewrite <- !app_assoc.
Qed.

(** The whole recursion, for distinct vertices of the graph that are not
    coloured yet: [backtrack] returns, and what it returns is the outcome
    of an exploration by the transition algorithm. *)
Lemma backtrack_explore rest :
  NoDup rest →
  (∀ u, u ∈ rest → u ∈ dict_keys adj) →
  ∀ p, (∀ u, u ∈ rest → p !! u = None) →
    ∃ res t, explore adj k rest p res t ∧
             ∀ s, backtrack adj k rest (p, s) = outcome p s res t.
Proof.
  induction rest as [|u rest IH]; intros Hnd Hkeys p Hp.
  - exists (Some p), [mkStep "done" "" None (Some p)]. split; [done |].
    intros s. done.
  - apply NoDup_cons in Hnd as [Hu Hnd]. simpl.
    apply (color_loop_explore (backtrack adj k rest) (explore adj k rest) u p)
      with (m := Z.to_nat k) (n := 0%nat).
    + apply Hkeys. left.
    + apply Hp. left.
    + intros c. apply IH; [done | |].
      * intros v Hv. apply Hkeys. by right.
      * intros v Hv. rewrite lookup_insert_ne; [apply Hp; by right |].
        intros ->. done.
    + lia.
Qed.
End SearchFacts.

(** ** What an exploration guarantees *)

Section ExploreFacts.
Context (adj : dict (list string)) (k : Z).
Implicit Types (p q : assignment) (t : list (Step assignment)).

(** Committing a compatible colour keeps the assignment proper; this is
    where symmetry and the absence of self-loops are used. *)
Lemma proper_insert p u c :
  adj_ok adj → proper adj p → ¬ conflicts adj p u c →
  proper adj (<[u := c]> p).
Proof.
  intros Hok Hp Hnc a b c' Hab Ha Hb.
  destruct (decide (a = u)) as [->|Hau], (decide (b = u)) as [->|Hbu].
  - by apply (adj_irrefl adj Hok u).
  - rewrite lookup_insert_eq in Ha. injection Ha as <-.
    rewrite lookup_insert_ne in Hb by done.
    apply Hnc. by exists b.
  - rewrite lookup_insert_eq in Hb. injection Hb as <-.
    rewrite lookup_insert_ne in Ha by done.
    apply Hnc. exists a. split; [by apply (adj_sym adj Hok) | done].
  - rewrite lookup_insert_ne in Ha, Hb by done. by apply (Hp a b c').
Qed.

Lemma proper_empty : proper adj ∅.
Proof. intros a b c _ H. by rewrite lookup_empty in H. Qed.

(** A successful exploration ends in a proper assignment that colours
    every explored vertex within range and leaves the others as they were. *)
Lemma explore_success rest :
  adj_ok adj →
  ∀ p res t, explore adj k rest p res t → proper adj p →
  ∀ q, res = Some q →
    proper adj q ∧
    (∀ u, u ∈ rest → ∃ c, q !! u = Some c ∧ 0 ≤ c < k) ∧
    (∀ v, v ∉ rest → q !! v = p !! v).
Proof.
  intros Hok. induction rest as [|u rest IH]; simpl; intros p res t H Hp q Hq.
  - destruct H as [-> _]. injection Hq as <-. split_and!; [done | | done].
    intros u Hu. inversion Hu.
  - remember 0 as c0 eqn:E in H. clear E.
    induction H as [c Hc|c res t Hc Hcf H IHt|c q' t Hc Hnc Hsub
                    |c t res t' Hc Hnc Hsub H IHt].
    + done.
    + by apply IHt.
    + injection Hq as ->.
      destruct (IH _ _ _ Hsub (proper_insert _ _ _ Hok Hp Hnc) q eq_refl)
        as (Hq1 & Hq2 & Hq3).
      split_and!; [done | |].
      * intros v Hv. destruct (decide (v ∈ rest)) as [Hin|Hnin]; [by apply Hq2 |].
        apply elem_of_cons in Hv as [->|Hv]; [|done].
        exists c. rewrite (Hq3 u Hnin), lookup_insert_eq. done.
      * intros v Hv. apply not_elem_of_cons in Hv as [Hvu Hv].
        rewrite (Hq3 v Hv). by rewrite lookup_insert_ne.
    + by apply IHt.
Qed.

(** Every snapshot of an exploration that starts from a proper assignment
    is proper. *)
Lemma explore_snapshots_proper rest :
  adj_ok adj →
  ∀ p res t, explore adj k rest p res t → proper adj p →
  ∀ x d, x ∈ t → partial x = Some d → proper adj d.
Proof.
  intros Hok. induction rest as [|u rest IH]; simpl; intros p res t H Hp x d Hx Hd.
  - destruct H as [_ ->]. apply list_elem_of_singleton in Hx as ->.
    simpl in Hd. by injection Hd as <-.
  - induction H as [c Hc|c res t Hc Hcf H IHt|c q' t Hc Hnc Hsub
                    |c t res t' Hc Hnc Hsub H IHt].
    + inversion Hx.
    + rewrite !elem_of_cons in Hx. destruct Hx as [->|[->|Hx]];
        [simpl in Hd; by injection Hd as <- .. | by apply IHt].
    + pose proof (proper_insert _ _ _ Hok Hp Hnc) as Hp'.
      rewrite !elem_of_cons in Hx. destruct Hx as [->|[->|Hx]];
        [simpl in Hd; by injection Hd as <- .. |].
      by apply (IH _ _ _ Hsub Hp' x d).
    + pose proof (proper_insert _ _ _ Hok Hp Hnc) as Hp'.
      rewrite !elem_of_cons, elem_of_app, elem_of_cons in Hx.
      destruct Hx as [->|[->|[Hx|[->|Hx]]]];
        [simpl in Hd; by injection Hd as <- .. | | |].
      * by apply (IH _ _ _ Hsub Hp' x d).
      * simpl in Hd. by injection Hd as <-.
      * by apply IHt.
Qed.

(** A failed exploration with at least one colour to try has recorded a
    conflict somewhere. *)
Lemma explore_failure_conflict rest :
  0 < k →
  ∀ p t, explore adj k rest p None t → ∃ x, x ∈ t ∧ action x = "conflict".
Proof.
  intros Hk. induction rest as [|u rest IH]; simpl; intros p t H.
  - by destruct H.
  - inversion H as [c Hc|c res t0 Hc Hcf H0|c q' t0 Hc Hnc Hsub
                    |c t0 res t' Hc Hnc Hsub H0]; subst.
    + lia.
    + eexists. split; [right; left | done].
    + destruct (IH _ _ Hsub) as (x & Hx & Ha). exists x. split; [|done].
      do 2 right. apply elem_of_app. by left.
Qed.

(** An exhausted vertex that has a neighbour already coloured [cv], with
    [cv] among the colours still to be tried, has a conflict step. *)
Lemma try_colors_exhausted_conflict sub u p v cv :
  adjacent adj u v → p !! v = Some cv →
  ∀ c res t, try_colors adj k sub u p c res t → res = None → c ≤ cv < k →
    has_conflict u t.
Proof.
  intros Hv Hpv c res t H.
  induction H as [c Hc|c res t Hc Hcf H IHt|c q' t Hc Hnc Hsub
                  |c t res t' Hc Hnc Hsub H IHt]; intros Hres Hcv.
  - lia.
  - eexists. split; [right; left | done].
  - done.
  - destruct (decide (c = cv)) as [->|Hne].
    + destruct Hnc. by exists v.
    + destruct IHt as (x & Hx & Ha); [done | lia |].
      exists x. split; [|done]. do 2 right. apply elem_of_app. by do 2 right.
Qed.
End ExploreFacts.

(** ** The engine and the endpoint *)

(** The engine on a graph with distinct keys: it returns, and its result
    is that of the exploration of the ordered vertices from the empty
    assignment. *)
Lemma color_graph_backtracking_explore adj k order :
  NoDup (dict_keys adj) →
  ∃ res t,
    explore adj k (order_nodes adj order) ∅ res t ∧
    backtrack adj k (order_nodes adj order) (∅, []) = outcome ∅ [] res t ∧
    color_graph_backtracking adj k order =
      Some (match res with Some q => (true, q, t) | None => (false, ∅, t) end).
Proof.
  intros Hnd.
  destruct (backtrack_explore adj k (order_nodes adj order)) with (p := (∅ : assignment))
    as (res & t & Hex & Hrun).
  - by apply order_nodes_NoDup.
  - intros u. by rewrite order_nodes_elem.
  - intros u _. apply lookup_empty.
  - exists res, t. split; [done |]. split; [apply Hrun |].
    unfold color_graph_backtracking. simpl. rewrite Hrun.
    by destruct res.
Qed.

Lemma solve_rejects_k req :
  ¬ (2 ≤ k_colors req ≤ 5) →
  solve req = Some {| ok := false; colors := ∅; steps := [];
                      message := "k_colors debe estar entre 2 y 5." |}.
Proof.
  intros H. unfold solve.
  destruct ((2 <=? k_colors req) && (k_colors req <=? 5)) eqn:E; [|done].
  apply andb_true_iff in E as [E1 E2]. lia.
Qed.

Lemma solve_rejects_empty req :
  2 ≤ k_colors req ≤ 5 → nodes req = [] →
  solve req = Some {| ok := false; colors := ∅; steps := [];
                      message := "Debes enviar nodos." |}.
Proof.
  intros H E. unfold solve.
  replace ((2 <=? k_colors req) && (k_colors req <=? 5)) with true
    by (symmetry; apply andb_true_iff; lia).
  simpl. by rewrite bool_decide_eq_true_2.
Qed.

(** A request that passes validation is answered by the exploration of the
    built graph. *)
Lemma solve_explore req :
  2 ≤ k_colors req ≤ 5 → nodes req ≠ [] →
  let adj := build_adj (nodes req) (edges req) in
  ∃ res t,
    explore adj (k_colors req)
      (order_nodes adj (order_or_degree (order req))) ∅ res t ∧
    backtrack adj (k_colors req)
      (order_nodes adj (order_or_degree (order req))) (∅, [])
      = outcome ∅ [] res t ∧
    solve req =
      Some (match res with
            | Some q => {| ok := true; colors := q; steps := t;
                           message := "Solución encontrada." |}
            | None => {| ok := false; colors := ∅; steps := t;
                         message := "No existe coloreo con k colores." |}
            end).
Proof.
  intros Hk Hn adj.
  destruct (color_graph_backtracking_explore adj (k_colors req)
              (order_or_degree (order req))) as (res & t & Hex & Hbt & Hrun).
  { apply (adj_keys_nodup _ (build_adj_ok _ _)). }
  exists res, t. split; [done |]. split; [done |].
  unfold solve.
  replace ((2 <=? k_colors req) && (k_colors req <=? 5)) with true
    by (symmetry; apply andb_true_iff; lia).
  simpl. rewrite bool_decide_eq_false_2 by done.
  fold adj. rewrite Hrun. by destruct res.
Qed.

(** [solve] never raises. *)
Lemma solve_total req : is_Some (solve req).
Proof.
  destruct (decide (2 ≤ k_colors req ≤ 5)) as [Hk|Hk].
  - destruct (decide (nodes req = [])) as [Hn|Hn].
    + rewrite solve_rejects_empty by done. eauto.
    + destruct (solve_explore req Hk Hn) as (res & t & _ & _ & ->). eauto.
  - rewrite solve_rejects_k by done. eauto.
Qed.

(** A successful answer comes from a successful exploration. *)
Lemma solve_ok_explore req resp :
  solve req = Some resp → ok resp = true →
  let adj := build_adj (nodes req) (edges req) in
  2 ≤ k_colors req ≤ 5 ∧
  explore adj (k_colors req)
    (order_nodes adj (order_or_degree (order req))) ∅
    (Some (colors resp)) (steps resp).
Proof.
  intros Hs Hok adj.
  destruct (decide (2 ≤ k_colors req ≤ 5)) as [Hk|Hk].
  - destruct (decide (nodes req = [])) as [Hn|Hn].
    + rewrite solve_rejects_empty in Hs by done. injection Hs as <-. done.
    + destruct (solve_explore req Hk Hn) as (res & t & Hex & _ & Hrun).
      rewrite Hrun in Hs. injection Hs as <-.
      destruct res; [done | discriminate].
  - rewrite solve_rejects_k in Hs by done. injection Hs as <-. done.
Qed.

(** ** The scenarios of the specification, run on the embedding *)

Example scenario_single_edge :
  solve single_edge =
    Some {| ok := true;
            colors := <["B" := 1]> (<["A" := 0]> ∅);
            steps :=
              [mkStep "try" "A" (Some 0) (Some ∅);
               mkStep "assign" "A" (Some 0) (Some (<["A" := 0]> ∅));
               mkStep "try" "B" (Some 0) (Some (<["A" := 0]> ∅));
               mkStep "conflict" "B" (Some 0) (Some (<["A" := 0]> ∅));
               mkStep "try" "B" (Some 1) (Some (<["A" := 0]> ∅));
               mkStep "assign" "B" (Some 1)
                 (Some (<["B" := 1]> (<["A" := 0]> ∅)));
               mkStep "done" "" None (Some (<["B" := 1]> (<["A" := 0]> ∅)))];
            message := "Solución encontrada." |}.
Proof. vm_compute. reflexivity. Qed.

Example scenario_triangle2 :
  (λ r, (ok r, colors r, length (steps r), message r)) <$> solve triangle2
  = Some (false, ∅, 24%nat, "No existe coloreo con k colores.").
Proof. vm_compute. reflexivity. Qed.

Example scenario_triangle3 :
  (λ r, (ok r, colors r !! "A", colors r !! "B", colors r !! "C"))
    <$> solve triangle3
  = Some (true, Some 0, Some 1, Some 2).
Proof. vm_compute. reflexivity. Qed.

Example scenario_four_isolated :
  (λ r, (ok r, colors r,
         existsb (λ x, bool_decide (action x = "conflict")) (steps r)))
    <$> solve four_isolated
  = Some (true,
          <["D" := 0]> (<["C" := 0]> (<["B" := 0]> (<["A" := 0]> ∅))),
          false).
Proof. vm_compute. reflexivity. Qed.

Example scenario_no_colors :
  solve no_colors =
    Some {| ok := false; colors := ∅; steps := [];
            message := "k_colors debe estar entre 2 y 5." |}.
Proof. reflexivity. Qed.

(** C1.  Whenever [solve] answers with [ok = true], the returned colours
    give every vertex of the request a colour in [[0, k)], and any two
    vertices that are neighbours in the graph built from the request (the
    filtered graph) have different colours. *)
Theorem solve_valid_coloring req resp :
  solve req = Some resp → ok resp = true →
  (∀ u, u ∈ nodes req →
        ∃ c, colors resp !! u = Some c ∧ 0 ≤ c < k_colors req) ∧
  (∀ u v, adjacent (build_adj (nodes req) (edges req)) u v →
          colors resp !! u ≠ colors resp !! v).
Proof.
  intros Hs Hok.
  destruct (solve_ok_explore req resp Hs Hok) as [Hk Hex].
  pose proof (build_adj_ok (nodes req) (edges req)) as Hadj.
  destruct (explore_success _ _ _ Hadj _ _ _ Hex (proper_empty _) _ eq_refl)
    as (Hprop & Hall & _).
  assert (Hcol : ∀ u, u ∈ nodes req →
            ∃ c, colors resp !! u = Some c ∧ 0 ≤ c < k_colors req).
  { intros u Hu. apply Hall. by rewrite order_nodes_elem, build_adj_keys_elem. }
  split; [done |].
  intros u v Huv E.
  pose proof Huv as Huv'. apply build_adj_adjacent in Huv' as (Hu & Hv & _).
  destruct (Hcol u Hu) as (c & Hc & _).
  apply (Hprop u v c Huv Hc). by rewrite <- E.
Qed.

Lemma solve_valid_coloring_witness :
  ∃ resp, solve triangle3 = Some resp ∧ ok resp = true ∧
    (∀ u, u ∈ nodes triangle3 →
          ∃ c, colors resp !! u = Some c ∧ 0 ≤ c < k_colors triangle3) ∧
    (∀ u v, adjacent (build_adj (nodes triangle3) (edges triangle3)) u v →
            colors resp !! u ≠ colors resp !! v).
Proof.
  destruct (solve_total triangle3) as [resp E]. exists resp.
  assert (Hok : ok resp = true).
  { assert (H : ok <$> solve triangle3 = Some true) by (vm_compute; reflexivity).
    rewrite E in H. by injection H. }
  split; [done |]. split; [done |].
  by apply (solve_valid_coloring triangle3 resp).
Defined.

(** C5.  A request whose [k_colors] is outside [2..5], or whose vertex list
    is empty, is answered without building the graph or searching: the
    answer is a response (not an exception) with [ok = false], no colours,
    no steps, and the validation message of the check that failed, the
    range of [k_colors] being checked first. *)
Theorem solve_rejects_invalid req :
  ¬ (2 ≤ k_colors req ≤ 5) ∨ nodes req = [] →
  solve req =
    Some {| ok := false; colors := ∅; steps := [];
            message := if decide (2 ≤ k_colors req ≤ 5)
                       then "Debes enviar nodos."
                       else "k_colors debe estar entre 2 y 5." |}.
Proof.
  intros H. case_decide as Hk.
  - destruct H as [H|H]; [done |]. by apply solve_rejects_empty.
  - by apply solve_rejects_k.
Qed.

Lemma solve_rejects_invalid_witness :
  solve no_colors =
    Some {| ok := false; colors := ∅; steps := [];
            message := "k_colors debe estar entre 2 y 5." |}.
Proof. apply (solve_rejects_invalid no_colors). left. simpl. lia. Defined.

(** With distinct vertices in the request, the keys of the built graph are
    the vertex list, in the order given. *)
Lemma build_adj_keys_input ns es : NoDup ns → dict_keys (build_adj ns es) = ns.
Proof. intros H. by rewrite build_adj_keys, init_adj_keys. Qed.

Lemma degree_length adj u ns : dict_get adj u = Some ns → degree adj u = length ns.
Proof. unfold degree. by intros ->. Qed.

(** The sort key of a vertex of the graph is the length of its neighbour
    list. *)
Lemma degree_key adj u :
  u ∈ dict_keys adj → length <$> dict_get adj u = Some (degree adj u).
Proof.
  intros Hu. apply dict_get_keys in Hu as [l Hl].
  unfold degree. by rewrite Hl.
Qed.

Lemma StronglySorted_impl_elem {A} (R R' : A → A → Prop) l :
  (∀ x y, x ∈ l → y ∈ l → R x y → R' x y) →
  StronglySorted R l → StronglySorted R' l.
Proof.
  induction l as [|x l IH]; intros Himp H; [constructor |].
  apply StronglySorted_cons in H as [Hx Hl].
  apply StronglySorted_cons. split.
  - apply Forall_forall. intros y Hy. rewrite Forall_forall in Hx.
    apply Himp; [left | by right | by apply Hx].
  - apply IH; [|done]. intros y z Hy Hz. apply Himp; by right.
Qed.

Lemma filter_ext_elem {A} (P Q : A → Prop)
    `{!∀ x, Decision (P x)} `{!∀ x, Decision (Q x)} (l : list A) :
  (∀ x, x ∈ l → P x ↔ Q x) → filter P l = filter Q l.
Proof.
  induction l as [|x l IH]; intros Hiff; [done |].
  rewrite !filter_cons, IH by (intros y Hy; apply Hiff; by right).
  assert (Hx : P x ↔ Q x) by (apply Hiff; left).
  repeat case_decide; tauto.
Qed.

(** C6.  [order_nodes adj "degree"] is a permutation of the vertices of
    [adj], sorted by decreasing length of the neighbour list, in which
    vertices whose neighbour lists have the same length keep the order they
    have in [adj] (the sort is stable); so when all vertices have the same
    number of neighbours the result is the key order of [adj], which for a
    graph built from distinct vertices is the input order. *)
Theorem order_nodes_degree_stable adj :
  order_nodes adj "degree" ≡ₚ dict_keys adj ∧
  StronglySorted
    (λ u v, ∃ lu lv, dict_get adj u = Some lu ∧ dict_get adj v = Some lv ∧
                     (length lv ≤ length lu)%nat)
    (order_nodes adj "degree") ∧
  (∀ d : nat,
     filter (λ u, length <$> dict_get adj u = Some d) (order_nodes adj "degree")
     = filter (λ u, length <$> dict_get adj u = Some d) (dict_keys adj)) ∧
  ((∀ u v, u ∈ dict_keys adj → v ∈ dict_keys adj →
           length <$> dict_get adj u = length <$> dict_get adj v) →
   order_nodes adj "degree" = dict_keys adj) ∧
  (∀ ns es, NoDup ns → adj = build_adj ns es → dict_keys adj = ns).
Proof.
  unfold order_nodes. rewrite decide_True by done. split_and!.
  - apply sorted_desc_perm.
  - eapply StronglySorted_impl_elem; [|apply (sorted_desc_sorted (degree adj))].
    intros u v Hu Hv Hle. rewrite sorted_desc_perm in Hu, Hv.
    apply dict_get_keys in Hu as [lu Hlu]. apply dict_get_keys in Hv as [lv Hlv].
    exists lu, lv. split; [done |]. split; [done |].
    by rewrite <- (degree_length _ _ _ Hlu), <- (degree_length _ _ _ Hlv).
  - intros d.
    rewrite (filter_ext_elem _ (λ u, degree adj u = d) (sorted_desc _ _)).
    + rewrite (filter_ext_elem _ (λ u, degree adj u = d) (dict_keys adj)).
      * apply sorted_desc_stable.
      * intros u Hu. rewrite (degree_key _ _ Hu). split; congruence.
    + intros u Hu. rewrite sorted_desc_perm in Hu.
      rewrite (degree_key _ _ Hu). split; congruence.
  - intros Heq. apply sorted_desc_all_equal. intros u v Hu Hv.
    pose proof (Heq u v Hu Hv) as H.
    rewrite (degree_key _ _ Hu), (degree_key _ _ Hv) in H. congruence.
  - intros ns es Hns ->. by apply build_adj_keys_input.
Qed.

Lemma order_nodes_degree_stable_witness :
  order_nodes cycle4 "degree" = ["A"; "B"; "C"; "D"] ∧
  order_nodes path3 "degree" = ["B"; "A"; "C"] ∧
  StronglySorted
    (λ u v, ∃ lu lv, dict_get path3 u = Some lu ∧ dict_get path3 v = Some lv ∧
                     (length lv ≤ length lu)%nat)
    ["B"; "A"; "C"] ∧
  filter (λ u, length <$> dict_get path3 u = Some 1%nat) ["B"; "A"; "C"]
    = ["A"; "C"].
Proof.
  split; [|split].
  - destruct (order_nodes_degree_stable cycle4) as (_ & _ & _ & Heq & Hkeys).
    rewrite Heq.
    + apply (Hkeys ["A"; "B"; "C"; "D"]
               [mkEdge "A" "B"; mkEdge "B" "C"; mkEdge "C" "D"; mkEdge "D" "A"]).
      * apply (bool_decide_unpack _). vm_compute. exact I.
      * reflexivity.
    + intros u v Hu Hv.
      assert (H : Forall (λ w, length <$> dict_get cycle4 w = Some 2%nat)
                    (dict_keys cycle4)).
      { apply (bool_decide_unpack _). vm_compute. exact I. }
      rewrite Forall_forall in H. by rewrite (H u Hu), (H v Hv).
  - reflexivity.
  - destruct (order_nodes_degree_stable path3) as (_ & Hs & Hf & _).
    assert (E : order_nodes path3 "degree" = ["B"; "A"; "C"]) by reflexivity.
    rewrite E in Hs, Hf. split; [exact Hs |]. rewrite (Hf 1%nat). reflexivity.
Defined.

(** The endpoint hands the engine the graph built from the request, the
    requested [k] and [req.order or "degree"]. *)
Lemma solve_engine req resp :
  2 ≤ k_colors req ≤ 5 → nodes req ≠ [] → solve req = Some resp →
  color_graph_backtracking (build_adj (nodes req) (edges req)) (k_colors req)
    (order_or_degree (order req))
  = Some (ok resp, colors resp, steps resp).
Proof.
  intros Hk Hn. unfold solve.
  replace ((2 <=? k_colors req) && (k_colors req <=? 5)) with true
    by (symmetry; apply andb_true_iff; lia).
  simpl. rewrite bool_decide_eq_false_2 by done.
  destruct (color_graph_backtracking _ _ _) as [[[b q] t]|]; simpl; [|done].
  by intros [= <-].
Qed.

(** With a colour to try, a search starts with a [try] of colour [0] for
    the first vertex of its order. *)
Lemma explore_first_try adj k u rest p res t :
  0 < k → explore adj k (u :: rest) p res t →
  head t = Some (mkStep "try" u (Some 0) (Some p)).
Proof. intros Hk H. simpl in H. inversion H; subst; [lia | done | done | done]. Qed.

(** C8.  Any [order] other than the exact string ["degree"] makes
    [order_nodes] return the vertices in the key order of the graph, which
    is the input order of the (distinct) vertices: it returns a list and has
    no other outcome.  At the endpoint an unrecognised name therefore gives
    the same answer as ["natural"], and a missing, [None] or empty [order]
    gives the same answer as ["degree"].  For a request that passes
    validation the answer is the engine's for the order named below, and
    the trace starts with a [try] of the first vertex of that order: the
    degree order when [order] is [None] or empty (a missing field is parsed
    to ["degree"]), and otherwise the order of the name given. *)
Theorem order_nodes_fallback adj order ns es k :
  (order ≠ "degree" → order_nodes adj order = dict_keys adj) ∧
  (NoDup ns → dict_keys (build_adj ns es) = ns) ∧
  (order ≠ "degree" → order ≠ "" →
   solve {| nodes := ns; edges := es; k_colors := k; order := Some order |}
   = solve {| nodes := ns; edges := es; k_colors := k; order := Some "natural" |}) ∧
  SolveRequest_parse ns es k None
    = {| nodes := ns; edges := es; k_colors := k; order := Some "degree" |} ∧
  solve {| nodes := ns; edges := es; k_colors := k; order := None |}
    = solve {| nodes := ns; edges := es; k_colors := k; order := Some "degree" |} ∧
  solve {| nodes := ns; edges := es; k_colors := k; order := Some "" |}
    = solve {| nodes := ns; edges := es; k_colors := k; order := Some "degree" |} ∧
  (2 ≤ k ≤ 5 → ns ≠ [] →
   ∀ o s resp,
     (o = None ∧ s = "degree") ∨ (o = Some "" ∧ s = "degree") ∨
     (o = Some s ∧ s ≠ "") →
     solve {| nodes := ns; edges := es; k_colors := k; order := o |} = Some resp →
     color_graph_backtracking (build_adj ns es) k s
       = Some (ok resp, colors resp, steps resp) ∧
     ∀ u rest, order_nodes (build_adj ns es) s = u :: rest →
               head (steps resp) = Some (mkStep "try" u (Some 0) (Some ∅))).
Proof.
  split_and!; try done.
  - intros H. unfold order_nodes. by rewrite decide_False.
  - apply build_adj_keys_input.
  - intros H1 H2. unfold solve, color_graph_backtracking, order_nodes; simpl.
    rewrite (decide_False (P := order = "")) by done.
    rewrite (decide_False (P := order = "degree")) by done.
    done.
  - intros Hk Hn o s resp Ho Hs.
    assert (Hod : order_or_degree o = s).
    { destruct Ho as [[-> ->]|[[-> ->]|[-> Hne]]]; [done | done |].
      simpl. by rewrite decide_False. }
    pose proof (solve_engine
                  {| nodes := ns; edges := es; k_colors := k; order := o |}
                  resp Hk Hn Hs) as Hrun.
    simpl in Hrun.
    rewrite Hod in Hrun. split; [exact Hrun |].
    intros u rest Hord.
    destruct (color_graph_backtracking_explore (build_adj ns es) k s)
      as (res & t & Hex & _ & Hrun').
    { apply (adj_keys_nodup _ (build_adj_ok _ _)). }
    rewrite Hord in Hex.
    assert (Ht : steps resp = t).
    { rewrite Hrun in Hrun'. by destruct res; injection Hrun'. }
    rewrite Ht.
    apply (explore_first_try (build_adj ns es) k u rest ∅ res t); [lia | exact Hex].
Qed.

Lemma order_nodes_fallback_witness :
  order_nodes path3 "degree" = ["B"; "A"; "C"] ∧
  order_nodes path3 "foo" = ["A"; "B"; "C"] ∧
  solve (path3_request (Some "foo")) = solve (path3_request (Some "natural")) ∧
  (∃ resp, solve (path3_request (Some "foo")) = Some resp ∧
           head (steps resp) = Some (mkStep "try" "A" (Some 0) (Some ∅))) ∧
  (∀ o, o ∈ [None; Some ""; order (SolveRequest_parse [] [] 2 None)] →
        ∃ resp, solve (path3_request o) = Some resp ∧
                color_graph_backtracking path3 2 "degree"
                  = Some (ok resp, colors resp, steps resp) ∧
                head (steps resp) = Some (mkStep "try" "B" (Some 0) (Some ∅))).
Proof.
  pose proof (order_nodes_fallback path3 "foo" ["A"; "B"; "C"]
                [mkEdge "A" "B"; mkEdge "B" "C"] 2)
    as (H1 & _ & H3 & _ & _ & _ & H7).
  assert (Hk : 2 ≤ 2 ≤ 5) by lia.
  assert (Hn : ["A"; "B"; "C"] ≠ ([] : list string)) by done.
  split; [reflexivity |].
  split; [rewrite H1; [reflexivity | done] |].
  split; [apply H3; done |].
  split.
  - destruct (solve_total (path3_request (Some "foo"))) as [resp E].
    exists resp. split; [exact E |].
    destruct (H7 Hk Hn (Some "foo") "foo" resp) as [_ Hhd]; [| exact E |].
    + right. right. split; [reflexivity | discriminate].
    + apply (Hhd "A" ["B"; "C"]). reflexivity.
  - intros o Ho.
    destruct (solve_total (path3_request o)) as [resp E].
    exists resp. split; [exact E |].
    destruct (H7 Hk Hn o "degree" resp) as [Hrun Hhd]; [| exact E |].
    + apply elem_of_cons in Ho as [->|Ho]; [left; split; reflexivity |].
      apply elem_of_cons in Ho as [->|Ho]; [right; left; split; reflexivity |].
      apply list_elem_of_singleton in Ho as ->.
      right. right. split; [reflexivity | discriminate].
    + split; [exact Hrun |]. apply (Hhd "B" ["A"; "C"]). reflexivity.
Defined.

Lemma build_adj_app ns es1 es2 :
  build_adj ns (es1 ++ es2) = foldl add_edge (build_adj ns es1) es2.
Proof. unfold build_adj; simpl. apply foldl_app. Qed.

(** C7.  In the graph built from a vertex list and an edge list: an edge
    that occurs again later in the list, in the same or in the opposite
    direction, can be removed there without changing the structure; the
    direction in which an edge is written does not matter; an edge that is
    a self-loop or has an end outside the vertex list can be removed; two
    edge lists with the same members, however often and wherever they occur,
    give the same neighbour relation; that relation is symmetric; and no
    neighbour list has a repeated entry. *)
Theorem build_adj_idempotent ns es1 e es2 es3 :
  build_adj ns (es1 ++ e :: es2 ++ e :: es3)
    = build_adj ns (es1 ++ e :: es2 ++ es3) ∧
  build_adj ns (es1 ++ e :: es2 ++ flip_edge e :: es3)
    = build_adj ns (es1 ++ e :: es2 ++ es3) ∧
  build_adj ns (es1 ++ flip_edge e :: es2) = build_adj ns (es1 ++ e :: es2) ∧
  (src e = dst e ∨ src e ∉ ns ∨ dst e ∉ ns →
   build_adj ns (es1 ++ e :: es2) = build_adj ns (es1 ++ es2)) ∧
  (∀ es', (∀ e', e' ∈ es1 ↔ e' ∈ es') →
          ∀ u v, adjacent (build_adj ns es1) u v ↔ adjacent (build_adj ns es') u v) ∧
  (∀ u v, adjacent (build_adj ns es1) u v → adjacent (build_adj ns es1) v u) ∧
  (∀ u l, dict_get (build_adj ns es1) u = Some l → NoDup l).
Proof.
  split_and!.
  - rewrite !build_adj_app; simpl. rewrite !foldl_app; simpl.
    f_equal. apply add_edge_settled_id, edge_settled_foldl, add_edge_settles.
  - rewrite !build_adj_app; simpl. rewrite !foldl_app; simpl.
    f_equal. apply add_edge_settled_id, edge_settled_flip.
    apply edge_settled_foldl, add_edge_settles.
  - rewrite !build_adj_app; simpl. by rewrite add_edge_flip.
  - intros H. rewrite !build_adj_app; simpl. f_equal. apply add_edge_dropped.
    unfold edge_kept. rewrite !build_adj_keys_elem. tauto.
  - intros es' Hes u v. rewrite !build_adj_adjacent.
    split; intros (? & ? & ? & e' & He' & ?); split_and!; try done;
      exists e'; (split; [by apply Hes | done]).
  - apply (adj_sym _ (build_adj_ok ns es1)).
  - apply build_adj_nbrs_NoDup.
Qed.

Lemma build_adj_idempotent_witness :
  build_adj ["A"; "B"] ([] ++ mkEdge "A" "A" :: [mkEdge "A" "B"])
  = build_adj ["A"; "B"] ([] ++ [mkEdge "A" "B"]).
Proof.
  destruct (build_adj_idempotent ["A"; "B"] [] (mkEdge "A" "A")
              [mkEdge "A" "B"] []) as (_ & _ & _ & H & _).
  apply H. left. reflexivity.
Defined.

(** ** The calls of a run *)

Section CallFacts.
Context (adj : dict (list string)) (k : Z).

Lemma elem_of_range c : c ∈ range k ↔ 0 ≤ c < k.
Proof.
  unfold range. rewrite list_elem_of_fmap. split.
  - intros (n & -> & Hn). apply elem_of_seq in Hn. lia.
  - intros H. exists (Z.to_nat c). split; [lia |]. apply elem_of_seq. lia.
Qed.

(** One turn of the loop. *)
Lemma color_loop_cons rec u c cs st :
  color_loop adj rec u (c :: cs) st =
    b ← compatible u c st.1 adj;
    if b : bool then
      r ← rec (record "assign" u (Some c)
                 (<[u := c]> st.1, (record "try" u (Some c) st).2));
      if r.1 : bool then Some (true, r.2)
      else st' ← del_color u (record "backtrack" u (Some c) r.2);
           color_loop adj rec u cs st'
    else color_loop adj rec u cs
           (record "conflict" u (Some c) (record "try" u (Some c) st)).
Proof. done. Qed.

(** Running the loop over [cs1 ++ cs2] is running it over [cs1] and, if
    that ends without success, going on with [cs2]. *)
Lemma color_loop_app rec u cs1 cs2 st :
  color_loop adj rec u (cs1 ++ cs2) st =
    match color_loop adj rec u cs1 st with
    | Some (false, st1) => color_loop adj rec u cs2 st1
    | r => r
    end.
Proof.
  revert st. induction cs1 as [|c cs1 IH]; intros st; simpl; [done |].
  destruct (compatible u c st.1 adj) as [[|]|]; simpl;
    [| by apply IH | done].
  destruct (rec _) as [[[|] st1]|]; simpl; [done | | done].
  destruct (del_color u _) as [st2|]; simpl; [by apply IH | done].
Qed.

Lemma assign_shows_other a u c d :
  a ≠ "assign" → assign_shows (mkStep a u c d).
Proof. intros H E. by destruct H. Qed.

Lemma assign_shows_assign u c (p : assignment) :
  assign_shows (mkStep "assign" u (Some c) (Some (<[u := c]> p))).
Proof. intros _. exists c, (<[u := c]> p). by rewrite lookup_insert_eq. Qed.

(** The trace is append-only, and every assign step appended shows its
    vertex coloured. *)
Lemma color_loop_steps_grow rec u cs :
  (∀ st r st', rec st = Some (r, st') →
     ∃ t, st'.2 = st.2 ++ t ∧ Forall assign_shows t) →
  ∀ st r st', color_loop adj rec u cs st = Some (r, st') →
    ∃ t, st'.2 = st.2 ++ t ∧ Forall assign_shows t.
Proof.
  intros Hrec. induction cs as [|c cs IH]; intros st r st'.
  - intros [= <- <-]. exists []. by rewrite app_nil_r.
  - rewrite color_loop_cons.
    destruct (compatible u c st.1 adj) as [[|]|]; cbn [mbind option_bind];
      [| | done].
    + destruct (rec _) as [[[|] st1]|] eqn:Er; cbn [mbind option_bind fst snd];
        [| | done].
      * intros [= <- <-]. apply Hrec in Er as (t & Ht & Hall). simpl in Ht.
        rewrite Ht, <- !app_assoc. eexists; split; [done |].
        apply Forall_app; split; [|apply Forall_app; split; [|done]];
          apply Forall_singleton;
          [by apply assign_shows_other | apply assign_shows_assign].
      * apply Hrec in Er as (t & Ht & Hall). simpl in Ht.
        unfold del_color. simpl. destruct (st1.1 !! u); simpl; [|done].
        intros H. apply IH in H as (t' & Ht' & Hall'). simpl in Ht'.
        rewrite Ht', Ht, <- !app_assoc. eexists; split; [done |].
        repeat (apply Forall_app; split); try done; apply Forall_singleton;
          try (by apply assign_shows_other); apply assign_shows_assign.
    + intros H. apply IH in H as (t' & Ht' & Hall'). simpl in Ht'.
      rewrite Ht', <- !app_assoc. eexists; split; [done |].
      repeat (apply Forall_app; split); try done; apply Forall_singleton;
        by apply assign_shows_other.
Qed.

Lemma backtrack_steps_grow rest :
  ∀ st r st', backtrack adj k rest st = Some (r, st') →
    ∃ t, st'.2 = st.2 ++ t ∧ Forall assign_shows t.
Proof.
  induction rest as [|u rest IH]; intros st r st'; simpl.
  - intros [= <- <-]. simpl. eexists; split; [done |].
    apply Forall_singleton. by apply assign_shows_other.
  - by apply color_loop_steps_grow.
Qed.

(** Under the entry conditions, a call returns and follows the transition
    algorithm. *)
Lemma call_inv_explore rest p s :
  call_inv adj k rest (p, s) →
  ∃ res t, explore adj k rest p res t ∧
           backtrack adj k rest (p, s) = outcome p s res t.
Proof.
  intros (Hnd & Hrest & _).
  destruct (backtrack_explore adj k rest Hnd) with (p := p) as (res & t & H1 & H2).
  - intros u Hu. by apply Hrest.
  - intros u Hu. by apply Hrest.
  - exists res, t. split; [done | apply H2].
Qed.

(** A run of the loop over some colours that ends without success leaves
    the colours as they were and only appends steps. *)
Lemma color_loop_failed u rest p cs :
  call_inv adj k (u :: rest) (p, []) →
  ∀ s st1, color_loop adj (backtrack adj k rest) u cs (p, s) = Some (false, st1) →
    ∃ t, st1 = (p, s ++ t).
Proof.
  intros (Hnd & Hrest & Hrange). apply NoDup_cons in Hnd as [Hu Hnd].
  destruct (Hrest u) as [Hkey Hpu]; [left |]. simpl in Hpu.
  induction cs as [|c cs IH]; intros s st1; simpl.
  - intros [= <-]. exists []. by rewrite app_nil_r.
  - destruct (compatible u c p adj) as [[|]|]; simpl; [| | done].
    + destruct (backtrack_explore adj k rest Hnd) with (p := <[u := c]> p)
        as (res & t & _ & Hrun).
      * intros v Hv. apply Hrest. by right.
      * intros v Hv. rewrite lookup_insert_ne by (intros ->; done).
        apply (Hrest v). by right.
      * rewrite record_eq, Hrun. destruct res as [q|]; simpl; [done |].
        unfold del_color; simpl. rewrite lookup_insert_eq; simpl.
        rewrite delete_insert_id by done.
        intros H. apply IH in H as [t' ->]. simpl. rewrite <- !app_assoc. eauto.
    + intros H. apply IH in H as [t' ->]. simpl. rewrite <- !app_assoc. eauto.
Qed.

Lemma call_inv_steps rest p s s' : call_inv adj k rest (p, s) → call_inv adj k rest (p, s').
Proof. done. Qed.

(** Every call of a run satisfies the entry conditions. *)
Lemma called_inv nodes rest st :
  NoDup nodes → (∀ u, u ∈ nodes → u ∈ dict_keys adj) →
  called adj k nodes rest st → call_inv adj k rest st.
Proof.
  intros Hnd Hkeys H.
  induction H as [|u rest [p s] cs1 c cs2 st1 Hcall IH Hcs Hloop Hcompat].
  - split_and!; [done | | ].
    + intros u Hu. split; [by apply Hkeys | apply lookup_empty].
    + intros v c Hv. simpl in Hv. by rewrite lookup_empty in Hv.
  - pose proof IH as (Hnd' & Hrest & Hrange).
    apply color_loop_failed in Hloop as [t ->];
      [| by apply (call_inv_steps _ _ s)].
    apply NoDup_cons in Hnd' as [Hu Hnd']. simpl.
    split_and!; [done | |].
    + intros v Hv. split; [apply Hrest; by right |]. simpl.
      rewrite lookup_insert_ne by (intros ->; done). apply (Hrest v). by right.
    + intros v c' Hv. simpl in Hv.
      destruct (decide (u = v)) as [->|Hne].
      * rewrite lookup_insert_eq in Hv. injection Hv as <-.
        apply elem_of_range. rewrite Hcs. apply elem_of_app. right. left.
      * rewrite lookup_insert_ne in Hv by done. by apply (Hrange v).
Qed.

(** The steps present when a call of a run returns are still there, in
    place, when the whole run returns. *)
Lemma called_steps_kept nodes rest st r0 st0 r st' :
  NoDup nodes → (∀ u, u ∈ nodes → u ∈ dict_keys adj) →
  called adj k nodes rest st →
  backtrack adj k nodes (∅, []) = Some (r0, st0) →
  backtrack adj k rest st = Some (r, st') →
  ∃ post, st0.2 = st'.2 ++ post.
Proof.
  intros Hnd Hkeys H Htop. revert r st'.
  induction H as [|u rest [p s] cs1 c cs2 st1 Hcall IH Hcs Hloop Hcompat];
    intros r st' Hrun.
  - rewrite Htop in Hrun. injection Hrun as <- <-. exists []. by rewrite app_nil_r.
  - pose proof (called_inv _ _ _ Hnd Hkeys Hcall) as Hinv.
    destruct (call_inv_explore _ _ _ Hinv) as (resp & tp & _ & Hp).
    assert (∃ rp stp, backtrack adj k (u :: rest) (p, s) = Some (rp, stp))
      as (rp & stp & Hp') by (rewrite Hp; destruct resp; simpl; eauto).
    destruct (IH _ _ Hp') as [post Hpost].
    cbn [backtrack] in Hp'.
    rewrite Hcs, color_loop_app, Hloop, color_loop_cons, Hcompat in Hp'.
    cbn [mbind option_bind] in Hp'. rewrite Hrun in Hp'. simpl in Hp'.
    destruct r.
    + injection Hp' as <- <-. eauto.
    + destruct (del_color u _) as [st2|] eqn:Ed; simpl in Hp'; [|done].
      apply color_loop_steps_grow in Hp' as (t' & Ht' & _);
        [| apply backtrack_steps_grow].
      unfold del_color in Ed. simpl in Ed.
      destruct (st'.1 !! u); simpl in Ed; [|done]. injection Ed as <-.
      simpl in Ht'. rewrite Hpost, Ht', <- !app_assoc. eauto.
Qed.
End CallFacts.

(** C9.  In a run of the engine, whenever a call [backtrack(i)] returns
    [False], the live assignment [colors] is what it was when that call was
    entered: every colour committed inside the call has been removed. *)
Theorem backtrack_failure_restores adj k order rest st st' :
  NoDup (dict_keys adj) →
  called adj k (order_nodes adj order) rest st →
  backtrack adj k rest st = Some (false, st') →
  st'.1 = st.1.
Proof.
  intros Hnd Hcall Hrun. destruct st as [p s].
  assert (Hinv : call_inv adj k rest (p, s)).
  { apply (called_inv adj k (order_nodes adj order)); [| |done].
    - by apply order_nodes_NoDup.
    - intros u. by rewrite order_nodes_elem. }
  destruct (call_inv_explore _ _ _ _ _ Hinv) as (res & t & _ & Hout).
  rewrite Hout in Hrun. destruct res; simpl in Hrun; [done |].
  by injection Hrun as <-.
Qed.

Lemma backtrack_failure_restores_witness :
  ∃ st st',
    st.1 = <["A" := 0]> ∅ ∧
    backtrack (build_adj (nodes triangle2) (edges triangle2)) 2 ["B"; "C"] st
      = Some (false, st') ∧
    st'.1 = st.1.
Proof.
  set (adj := build_adj (nodes triangle2) (edges triangle2)).
  set (st := record "assign" "A" (Some 0)
               (<["A" := 0]> (∅ : assignment),
                (record "try" "A" (Some 0) (∅, [])).2)).
  assert (Hcall : called adj 2 (order_nodes adj "natural") ["B"; "C"] st).
  { apply (called_rec adj 2 _ "A" ["B"; "C"] (∅, []) [] 0 [1] (∅, [])).
    - apply called_top.
    - reflexivity.
    - reflexivity.
    - reflexivity. }
  assert (H : fst <$> backtrack adj 2 ["B"; "C"] st = Some false)
    by (vm_compute; reflexivity).
  destruct (backtrack adj 2 ["B"; "C"] st) as [[r st']|] eqn:E;
    [| discriminate H].
  simpl in H. injection H as ->.
  exists st, st'. split; [reflexivity |]. split; [done |].
  apply (backtrack_failure_restores adj 2 "natural" ["B"; "C"] st st');
    [| done | done].
  apply (bool_decide_unpack _). vm_compute. exact I.
Defined.

(** C10.  Every assignment snapshot in the trace returned by [solve],
    whatever the action of its step, is a proper partial colouring of the
    graph built from the request: no two neighbours have the same colour
    in it. *)
Theorem trace_snapshots_proper req resp x d :
  solve req = Some resp →
  x ∈ steps resp → partial x = Some d →
  proper (build_adj (nodes req) (edges req)) d.
Proof.
  intros Hs Hx Hd.
  destruct (decide (2 ≤ k_colors req ≤ 5)) as [Hk|Hk].
  - destruct (decide (nodes req = [])) as [Hn|Hn].
    + rewrite solve_rejects_empty in Hs by done. injection Hs as <-.
      inversion Hx.
    + destruct (solve_explore req Hk Hn) as (res & t & Hex & _ & Hrun).
      rewrite Hrun in Hs. injection Hs as <-.
      assert (Hx' : x ∈ t) by (by destruct res).
      apply (explore_snapshots_proper _ _ _ (build_adj_ok _ _) _ _ _ Hex
               (proper_empty _) x d Hx' Hd).
  - rewrite solve_rejects_k in Hs by done. injection Hs as <-. inversion Hx.
Qed.

Lemma trace_snapshots_proper_witness :
  ∃ resp x,
    solve triangle2 = Some resp ∧ steps resp !! 5%nat = Some x ∧
    action x = "assign" ∧ partial x = Some (<["B" := 1]> (<["A" := 0]> ∅)) ∧
    proper (build_adj (nodes triangle2) (edges triangle2))
      (<["B" := 1]> (<["A" := 0]> ∅)).
Proof.
  destruct (solve_total triangle2) as [resp E].
  assert (H : (steps <$> solve triangle2) ≫= (.!! 5%nat)
              = Some (mkStep "assign" "B" (Some 1)
                        (Some (<["B" := 1]> (<["A" := 0]> ∅)))))
    by (vm_compute; reflexivity).
  rewrite E in H. simpl in H.
  eexists resp, _. split; [done |]. split; [exact H |].
  split; [reflexivity |]. split; [reflexivity |].
  apply (trace_snapshots_proper triangle2 resp
           (mkStep "assign" "B" (Some 1) (Some (<["B" := 1]> (<["A" := 0]> ∅))))
           _ E).
  - by apply list_elem_of_lookup_2 in H.
  - reflexivity.
Defined.

(** The [try] steps of an exploration are for the vertices explored. *)
Lemma explore_try_nodes adj k rest :
  ∀ p res t, explore adj k rest p res t →
  ∀ x, x ∈ t → action x = "try" → node x ∈ rest.
Proof.
  induction rest as [|u rest IH]; simpl; intros p res t H x Hx Ha.
  - destruct H as [_ ->]. apply list_elem_of_singleton in Hx as ->. done.
  - remember 0 as c0 eqn:E in H. clear E.
    induction H as [c Hc|c res t Hc Hcf H IHt|c q' t Hc Hnc Hsub
                    |c t res t' Hc Hnc Hsub H IHt].
    + inversion Hx.
    + rewrite !elem_of_cons in Hx. destruct Hx as [->|[->|Hx]];
        [left | done | by apply IHt].
    + rewrite !elem_of_cons in Hx. destruct Hx as [->|[->|Hx]];
        [left | done | right; by eapply IH].
    + rewrite !elem_of_cons, elem_of_app, elem_of_cons in Hx.
      destruct Hx as [->|[->|[Hx|[->|Hx]]]];
        [left | done | right; by eapply IH | done | by apply IHt].
Qed.

Lemma tries_of_cons_try u c d tr :
  tries_of u (mkStep "try" u (Some c) d :: tr) = c :: tries_of u tr.
Proof.
  unfold tries_of. simpl. by rewrite bool_decide_eq_true_2.
Qed.

Lemma tries_of_cons_other a v c d u tr :
  a ≠ "try" → tries_of u (mkStep a v c d :: tr) = tries_of u tr.
Proof.
  intros H. unfold tries_of. simpl.
  rewrite bool_decide_eq_false_2; [done |]. by intros [? _].
Qed.

Lemma tries_of_app u tr1 tr2 :
  tries_of u (tr1 ++ tr2) = tries_of u tr1 ++ tries_of u tr2.
Proof. apply omap_app. Qed.

Lemma tries_of_elsewhere u tr :
  (∀ x, x ∈ tr → action x = "try" → node x ≠ u) → tries_of u tr = [].
Proof.
  induction tr as [|x tr IH]; intros H; [done |].
  unfold tries_of. simpl. rewrite bool_decide_eq_false_2.
  - apply IH. intros y Hy. apply H. by right.
  - intros [Ha Hn]. by apply (H x); [left | |].
Qed.

(** The colours tried for [u] by one run of the transition algorithm from
    colour [c] are [c, c + 1, ...], and reach [k - 1] when it fails. *)
Lemma try_colors_tries adj k rest u p :
  u ∉ rest →
  ∀ c res t, try_colors adj k (explore adj k rest) u p c res t →
  0 ≤ c → (Z.to_nat c ≤ Z.to_nat k)%nat →
  ∃ n, tries_of u t = Z.of_nat <$> seq (Z.to_nat c) n ∧
       (Z.to_nat c + n ≤ Z.to_nat k)%nat ∧
       (res = None → (Z.to_nat c + n)%nat = Z.to_nat k).
Proof.
  intros Hu c res t H.
  assert (Hsub : ∀ q r t0, explore adj k rest q r t0 → tries_of u t0 = []).
  { intros q r t0 Hex. apply tries_of_elsewhere. intros x Hx Ha E.
    apply Hu. rewrite <- E. by eapply explore_try_nodes. }
  induction H as [c Hc|c res t Hc Hcf H IHt|c q' t Hc Hnc Hex
                  |c t res t' Hc Hnc Hex H IHt]; intros H0 Hle.
  - exists 0%nat. split_and!; [done | lia | intros _; lia].
  - destruct IHt as (n & Ht & Hn & Hres); [lia | lia |].
    exists (S n). rewrite tries_of_cons_try, tries_of_cons_other, Ht by done.
    replace (Z.to_nat (c + 1)) with (S (Z.to_nat c)) in * by lia.
    split_and!; [| lia | intros E; specialize (Hres E); lia].
    simpl. by rewrite Z2Nat.id.
  - exists 1%nat. rewrite tries_of_cons_try, tries_of_cons_other by done.
    rewrite (Hsub _ _ _ Hex). split_and!; [| lia | done].
    simpl. by rewrite Z2Nat.id.
  - destruct IHt as (n & Ht & Hn & Hres); [lia | lia |].
    exists (S n). rewrite tries_of_cons_try, tries_of_cons_other by done.
    rewrite tries_of_app, (Hsub _ _ _ Hex), tries_of_cons_other, Ht by done.
    replace (Z.to_nat (c + 1)) with (S (Z.to_nat c)) in * by lia.
    split_and!; [| lia | intros E; specialize (Hres E); lia].
    simpl. by rewrite Z2Nat.id.
Qed.

(** C4.  Every call [backtrack(i)] of a run, for its vertex [u], follows
    the transition algorithm [try_colors] from colour [0]: colours are taken
    in the order [0, 1, ..., k-1]; each gives first a [try] step whose
    snapshot is the assignment the call was entered with, in which [u] has
    no colour; an incompatible colour gives a [conflict] step with that
    same snapshot; a compatible one gives an [assign] step and the
    exploration of the remaining vertices, and when this fails a
    [backtrack] step whose snapshot still has [u] at that colour, after
    which the next colour is tried from the entry assignment again.  Read
    off the trace [t] of the call: the colours of the [try] steps for [u]
    are an initial segment of [range(k)], all of it when the call fails. *)
Theorem backtrack_follows_transition adj k order u rest st :
  NoDup (dict_keys adj) →
  called adj k (order_nodes adj order) (u :: rest) st →
  st.1 !! u = None ∧
  ∃ res t,
    try_colors adj k (explore adj k rest) u st.1 0 res t ∧
    backtrack adj k (u :: rest) st = outcome st.1 st.2 res t ∧
    tries_of u t `prefix_of` range k ∧
    (res = None → tries_of u t = range k).
Proof.
  intros Hnd Hcall. destruct st as [p s].
  assert (Hinv : call_inv adj k (u :: rest) (p, s)).
  { apply (called_inv adj k (order_nodes adj order)); [| |done].
    - by apply order_nodes_NoDup.
    - intros v. by rewrite order_nodes_elem. }
  split.
  - destruct Hinv as (_ & H & _). apply (H u). left.
  - destruct (call_inv_explore _ _ _ _ _ Hinv) as (res & t & Hex & Hout).
    exists res, t. split; [done |]. split; [done |].
    destruct Hinv as (Hnd' & _). apply NoDup_cons in Hnd' as [Hu _].
    destruct (try_colors_tries adj k rest u p Hu 0 res t Hex)
      as (n & Ht & Hn & Hres); [lia | simpl; lia |].
    simpl in *. unfold range. split.
    + exists (Z.of_nat <$> seq n (Z.to_nat k - n)).
      rewrite Ht, <- fmap_app, <- seq_app. do 2 f_equal. lia.
    + intros E. rewrite Ht. by rewrite (Hres E).
Qed.

Lemma backtrack_follows_transition_witness :
  ∃ res t,
    try_colors (build_adj (nodes triangle2) (edges triangle2)) 2
      (explore (build_adj (nodes triangle2) (edges triangle2)) 2 ["B"; "C"])
      "A" ∅ 0 res t ∧
    backtrack (build_adj (nodes triangle2) (edges triangle2)) 2
      ["A"; "B"; "C"] (∅, []) = outcome ∅ [] res t ∧
    tries_of "A" t `prefix_of` range 2 ∧
    (res = None → tries_of "A" t = range 2).
Proof.
  apply (backtrack_follows_transition
           (build_adj (nodes triangle2) (edges triangle2)) 2 "natural"
           "A" ["B"; "C"] (∅, [])).
  - apply (bool_decide_unpack _). vm_compute. exact I.
  - apply called_top.
Defined.

(** ** Graphs that need more colours *)

Lemma has_conflictb_spec u tr : has_conflictb u tr = true ↔ has_conflict u tr.
Proof.
  unfold has_conflictb, has_conflict. rewrite existsb_exists. split.
  - intros (x & Hx & H). apply andb_true_iff in H as [H1 H2].
    apply bool_decide_eq_true_1 in H1, H2.
    exists x. by rewrite list_elem_of_In.
  - intros (x & Hx & H1 & H2). exists x. rewrite <- list_elem_of_In.
    split; [done |]. by rewrite !bool_decide_eq_true_2.
Qed.

(** The triangle has no proper colouring with two colours. *)
Lemma triangle2_not_colorable :
  ¬ colorable (build_adj (nodes triangle2) (edges triangle2)) 2.
Proof.
  intros (p & Hall & Hprop).
  assert (HA : "A" ∈ dict_keys (build_adj (nodes triangle2) (edges triangle2)))
    by (apply build_adj_keys_elem; simpl; in_list).
  assert (HB : "B" ∈ dict_keys (build_adj (nodes triangle2) (edges triangle2)))
    by (apply build_adj_keys_elem; simpl; in_list).
  assert (HC : "C" ∈ dict_keys (build_adj (nodes triangle2) (edges triangle2)))
    by (apply build_adj_keys_elem; simpl; in_list).
  destruct (Hall _ HA) as (a & Ha & Hra).
  destruct (Hall _ HB) as (b & Hb & Hrb).
  destruct (Hall _ HC) as (c & Hc & Hrc).
  assert (Hab : adjacent (build_adj (nodes triangle2) (edges triangle2)) "A" "B").
  { exists ["B"; "C"]. split; [reflexivity | in_list]. }
  assert (Hac : adjacent (build_adj (nodes triangle2) (edges triangle2)) "A" "C").
  { exists ["B"; "C"]. split; [reflexivity | in_list]. }
  assert (Hbc : adjacent (build_adj (nodes triangle2) (edges triangle2)) "B" "C").
  { exists ["A"; "C"]. split; [reflexivity | in_list]. }
  pose proof (Hprop _ _ _ Hab Ha) as N1.
  pose proof (Hprop _ _ _ Hac Ha) as N2.
  pose proof (Hprop _ _ _ Hbc Hb) as N3.
  rewrite Hb in N1. rewrite Hc in N2, N3.
  assert (a ≠ b) by congruence. assert (a ≠ c) by congruence.
  assert (b ≠ c) by congruence. lia.
Qed.

(** C3, as the code has it.  For a request with [k] in the accepted range
    whose graph has no proper colouring with [k] colours, [solve] answers with
    [ok = false], no colours and a non-empty trace.  The trace has at least
    one conflict step; and every call [backtrack(i)] of the run that returns
    [False] for a vertex [u] having a neighbour [v] already coloured on
    entry has recorded, among the steps [t] it added to the trace, a
    conflict step for [u].  (A vertex exhausted without a coloured
    neighbour, such as the first vertex of the order, is not covered.) *)
Theorem unsat_fails_with_conflicts req :
  2 ≤ k_colors req ≤ 5 →
  ¬ colorable (build_adj (nodes req) (edges req)) (k_colors req) →
  ∃ resp,
    solve req = Some resp ∧ ok resp = false ∧ colors resp = ∅ ∧
    steps resp ≠ [] ∧
    (∃ x, x ∈ steps resp ∧ action x = "conflict") ∧
    (∀ u rest st st' v cv,
       called (build_adj (nodes req) (edges req)) (k_colors req)
         (order_nodes (build_adj (nodes req) (edges req))
            (order_or_degree (order req)))
         (u :: rest) st →
       backtrack (build_adj (nodes req) (edges req)) (k_colors req)
         (u :: rest) st = Some (false, st') →
       adjacent (build_adj (nodes req) (edges req)) u v →
       st.1 !! v = Some cv →
       ∃ t post, st'.2 = st.2 ++ t ∧ steps resp = st.2 ++ t ++ post ∧
                 has_conflict u t).
Proof.
  intros Hk Hunsat.
  assert (Hn : nodes req ≠ []).
  { intros E. destruct Hunsat. exists ∅. split; [|apply proper_empty].
    intros u Hu. apply build_adj_keys_elem in Hu. rewrite E in Hu.
    inversion Hu. }
  set (adj := build_adj (nodes req) (edges req)) in *.
  set (ord := order_nodes adj (order_or_degree (order req))).
  pose proof (build_adj_ok (nodes req) (edges req)) as Hadj. fold adj in Hadj.
  destruct (solve_explore req Hk Hn) as (res & t & Hex & Hbt & Hrun).
  fold adj in Hex, Hbt. fold ord in Hex, Hbt.
  destruct res as [q|].
  { destruct Hunsat. exists q.
    destruct (explore_success _ _ _ Hadj _ _ _ Hex (proper_empty _) _ eq_refl)
      as (Hprop & Hall & _).
    split; [|done]. intros u Hu. apply Hall. unfold ord.
    by rewrite order_nodes_elem. }
  destruct (explore_failure_conflict adj (k_colors req) ord) with (p := (∅ : assignment)) (t := t)
    as (x & Hx & Hax); [lia | done |].
  eexists. split; [exact Hrun |]. cbn [ok colors steps]. split_and!; try done.
  - intros ->. inversion Hx.
  - by exists x.
  - intros u rest [p s] st' v cv Hcall Hfail Hv Hpv. simpl in Hpv.
    assert (Hnd : NoDup ord)
      by (apply order_nodes_NoDup, (adj_keys_nodup _ Hadj)).
    assert (Hkeys : ∀ w, w ∈ ord → w ∈ dict_keys adj)
      by (intros w; unfold ord; by rewrite order_nodes_elem).
    pose proof (called_inv adj _ ord _ _ Hnd Hkeys Hcall) as Hinv.
    destruct (called_steps_kept adj _ ord _ _ _ _ _ _ Hnd Hkeys Hcall Hbt Hfail)
      as [post Hpost]. simpl in Hpost.
    destruct (call_inv_explore _ _ _ _ _ Hinv) as (res & t' & Hex' & Hout).
    rewrite Hout in Hfail. destruct res; simpl in Hfail; [done |].
    injection Hfail as <-. simpl in *.
    exists t', post. split; [done |]. split; [by rewrite Hpost, <- app_assoc |].
    destruct Hinv as (_ & _ & Hrange).
    apply (try_colors_exhausted_conflict adj (k_colors req)
             (explore adj (k_colors req) rest) u p v cv Hv Hpv _ _ _ Hex' eq_refl).
    specialize (Hrange v cv Hpv). lia.
Qed.

Lemma unsat_fails_with_conflicts_witness :
  ∃ resp,
    solve triangle2 = Some resp ∧ ok resp = false ∧ colors resp = ∅ ∧
    steps resp ≠ [] ∧
    (∃ x, x ∈ steps resp ∧ action x = "conflict") ∧
    (∀ u rest st st' v cv,
       called (build_adj (nodes triangle2) (edges triangle2)) 2
         (order_nodes (build_adj (nodes triangle2) (edges triangle2)) "natural")
         (u :: rest) st →
       backtrack (build_adj (nodes triangle2) (edges triangle2)) 2
         (u :: rest) st = Some (false, st') →
       adjacent (build_adj (nodes triangle2) (edges triangle2)) u v →
       st.1 !! v = Some cv →
       ∃ t post, st'.2 = st.2 ++ t ∧ steps resp = st.2 ++ t ++ post ∧
                 has_conflict u t).
Proof.
  apply (unsat_fails_with_conflicts triangle2).
  - simpl. lia.
  - apply triangle2_not_colorable.
Defined.

(** C3 as stated fails.  The triangle needs three colours and is searched
    with two.  The outermost call, for vertex ["A"], goes through both
    colours and returns [False]: ["A"] is exhausted, and it is from this
    exhaustion that the engine reports failure.  Yet the trace has no
    conflict step for ["A"], which is tried before any neighbour has a
    colour. *)
Lemma exhausted_vertex_without_conflict :
  ¬ colorable (build_adj (nodes triangle2) (edges triangle2)) 2 ∧
  ∃ resp st',
    solve triangle2 = Some resp ∧ ok resp = false ∧
    called (build_adj (nodes triangle2) (edges triangle2)) 2
      (order_nodes (build_adj (nodes triangle2) (edges triangle2)) "natural")
      ("A" :: ["B"; "C"]) (∅, []) ∧
    backtrack (build_adj (nodes triangle2) (edges triangle2)) 2
      ("A" :: ["B"; "C"]) (∅, []) = Some (false, st') ∧
    st'.2 = steps resp ∧
    ¬ has_conflict "A" (steps resp).
Proof.
  split; [apply triangle2_not_colorable |].
  destruct (solve_explore triangle2) as (res & t & _ & Hbt & Hrun);
    [simpl; lia | done |].
  assert (Hc : (λ r, (ok r, has_conflictb "A" (steps r))) <$> solve triangle2
               = Some (false, false)) by (vm_compute; reflexivity).
  rewrite Hrun in Hc. destruct res as [q|]; [discriminate Hc |].
  simpl in Hc. injection Hc as Hc.
  eexists _, _. split; [exact Hrun |]. split; [done |].
  split; [apply called_top |]. split; [exact Hbt |]. split; [done |].
  cbn [steps]. intros H. apply has_conflictb_spec in H. congruence.
Qed.

(** ** Snapshots in the store *)

Section StoreFacts.
Context (adj : dict (list string)) (k : Z) (live : loc).
Implicit Types (hst : store_state) (st : search_state).

Lemma frame_refl hst : frame live hst hst.
Proof. split_and!; [done | done |]. exists []. by rewrite app_nil_r. Qed.

Lemma frame_trans hst1 hst2 hst3 :
  frame live hst1 hst2 → frame live hst2 hst3 → frame live hst1 hst3.
Proof.
  intros (L1 & H1 & ys1 & E1) (L2 & H2 & ys2 & E2). split_and!.
  - lia.
  - intros l Hl Hlt. rewrite H2 by (done || lia). by apply H1.
  - exists (ys1 ++ ys2). by rewrite E2, E1, app_assoc.
Qed.

(** Within a frame, the steps already recorded read as before. *)
Lemma read_step_frame hst hst' x :
  store_wf live hst → frame live hst hst' → x ∈ hst.2 →
  read_step hst'.1 x = read_step hst.1 x.
Proof.
  intros [_ Hwf] (_ & Hfr & _) Hx.
  destruct (Hwf x Hx) as (l & Hl & Hne & Hlt).
  unfold read_step. rewrite Hl. simpl. by rewrite Hfr.
Qed.

Lemma read_steps_frame hst h' :
  store_wf live hst →
  (∀ l, l ≠ live → (l < length hst.1)%nat → h' !! l = hst.1 !! l) →
  read_step h' <$> hst.2 = read_step hst.1 <$> hst.2.
Proof.
  intros [_ Hwf] Hfr. apply list_fmap_ext. intros i x Hx.
  destruct (Hwf x) as (l & Hl & Hne & Hlt).
  { by apply list_elem_of_lookup_2 in Hx. }
  unfold read_step. rewrite Hl. simpl. by rewrite Hfr.
Qed.

Lemma sim_live hst st : sim live hst st → hst.1 !! live = Some st.1.
Proof.
  intros [_ H]. unfold read_state in H.
  destruct (hst.1 !! live); simpl in H; [|done]. by injection H as <-.
Qed.

Lemma sim_steps hst st : sim live hst st → read_step hst.1 <$> hst.2 = st.2.
Proof.
  intros [_ H]. unfold read_state in H.
  destruct (hst.1 !! live); simpl in H; [|done]. by injection H as <-.
Qed.

Lemma sim_intro hst p s :
  store_wf live hst → hst.1 !! live = Some p → read_step hst.1 <$> hst.2 = s →
  sim live hst (p, s).
Proof. intros Hwf Hp Hs. split; [done |]. unfold read_state. by rewrite Hp, Hs. Qed.

(** Recording a step copies the live dictionary into a new object. *)
Lemma record_s_sim a u c hst st :
  sim live hst st →
  ∃ hst', record_s live a u c hst = Some hst' ∧
          sim live hst' (record a u c st) ∧ frame live hst hst'.
Proof.
  intros Hsim. pose proof (sim_live _ _ Hsim) as Hp.
  pose proof (sim_steps _ _ Hsim) as Hs. destruct Hsim as [[Hlt Hwf] _].
  destruct hst as [h xs], st as [p s]. simpl in *.
  unfold record_s. simpl. rewrite Hp. simpl. eexists. split; [done |].
  split; [apply sim_intro; simpl |].
  - split; simpl.
    + rewrite length_app. lia.
    + intros x Hx. apply elem_of_app in Hx as [Hx|Hx].
      * destruct (Hwf x Hx) as (l & ? & ? & ?). exists l.
        rewrite length_app. split_and!; [done | done | lia].
      * apply list_elem_of_singleton in Hx as ->. exists (length h). simpl.
        rewrite length_app. simpl. split_and!; [done | lia | lia].
  - by apply lookup_app_l_Some.
  - rewrite fmap_app. simpl. f_equal.
    + rewrite <- Hs. apply list_fmap_ext. intros i x Hx.
      destruct (Hwf x) as (l & Hl & _ & Hl').
      { by apply list_elem_of_lookup_2 in Hx. }
      unfold read_step. rewrite Hl. simpl. by rewrite lookup_app_l.
    + unfold read_step. simpl. by rewrite list_lookup_middle.
  - split_and!; simpl.
    + rewrite length_app. lia.
    + intros l _ Hl. by rewrite lookup_app_l.
    + eauto.
Qed.

(** [colors[u] = c] updates the live object in place and nothing else. *)
Lemma set_color_s_sim u c hst st :
  sim live hst st →
  ∃ hst', set_color_s live u c hst = Some hst' ∧
          sim live hst' (<[u := c]> st.1, st.2) ∧ frame live hst hst'.
Proof.
  intros Hsim. pose proof (sim_live _ _ Hsim) as Hp.
  pose proof (sim_steps _ _ Hsim) as Hs. pose proof Hsim as [[Hlt Hwf] _].
  unfold set_color_s. rewrite Hp. simpl. eexists. split; [done |].
  split; [apply sim_intro; simpl |].
  - split; simpl; rewrite length_insert; done.
  - by apply list_lookup_insert_eq.
  - rewrite <- Hs. apply (read_steps_frame hst); [by destruct Hsim |].
    intros l Hl _. by apply list_lookup_insert_ne.
  - split_and!; simpl.
    + by rewrite length_insert.
    + intros l Hl _. by apply list_lookup_insert_ne.
    + exists []. by rewrite app_nil_r.
Qed.

(** [del colors[u]] likewise, raising exactly when the value-level model
    does. *)
Lemma del_color_s_sim u hst st :
  sim live hst st →
  match del_color_s live u hst, del_color u st with
  | Some hst', Some st' => sim live hst' st' ∧ frame live hst hst'
  | None, None => True
  | _, _ => False
  end.
Proof.
  intros Hsim. pose proof (sim_live _ _ Hsim) as Hp.
  pose proof (sim_steps _ _ Hsim) as Hs. pose proof Hsim as [[Hlt Hwf] _].
  unfold del_color_s, del_color. rewrite Hp. simpl.
  destruct (st.1 !! u); simpl; [|done].
  split; [apply sim_intro; simpl |].
  - split; simpl; rewrite length_insert; done.
  - by apply list_lookup_insert_eq.
  - rewrite <- Hs. apply (read_steps_frame hst); [by destruct Hsim |].
    intros l Hl _. by apply list_lookup_insert_ne.
  - split_and!; simpl.
    + by rewrite length_insert.
    + intros l Hl _. by apply list_lookup_insert_ne.
    + exists []. by rewrite app_nil_r.
Qed.

Lemma compatible_s_sim u c hst st :
  sim live hst st → compatible_s adj live u c hst = compatible u c st.1 adj.
Proof. intros Hsim. unfold compatible_s. by rewrite (sim_live _ _ Hsim). Qed.

Lemma sim_result_frame hst hst1 o_s o_v :
  frame live hst hst1 → sim_result live hst1 o_s o_v → sim_result live hst o_s o_v.
Proof.
  intros F. unfold sim_result.
  destruct o_s as [[r h']|], o_v as [[r' st']|]; try done.
  intros (? & ? & F'). split_and!; [done | done |]. by eapply frame_trans.
Qed.

(** The loop of the store-level model simulates the value-level one. *)
Lemma color_loop_s_sim rec_s rec u cs :
  (∀ hst st, sim live hst st → sim_result live hst (rec_s hst) (rec st)) →
  ∀ hst st, sim live hst st →
    sim_result live hst (color_loop_s adj live rec_s u cs hst)
      (color_loop adj rec u cs st).
Proof.
  intros Hrec. induction cs as [|c cs IH]; intros hst st Hsim.
  - simpl. split_and!; [done | done | apply frame_refl].
  - rewrite color_loop_cons. cbn [color_loop_s].
    destruct (record_s_sim "try" u (Some c) hst st Hsim) as (h1 & E1 & S1 & F1).
    rewrite E1. cbn [mbind option_bind].
    rewrite (compatible_s_sim u c h1 _ S1).
    change (record "try" u (Some c) st).1 with st.1.
    destruct (compatible u c st.1 adj) as [[|]|]; cbn [mbind option_bind];
      [| | done].
    + destruct (set_color_s_sim u c h1 _ S1) as (h2 & E2 & S2 & F2).
      rewrite E2. cbn [mbind option_bind].
      destruct (record_s_sim "assign" u (Some c) h2 _ S2) as (h3 & E3 & S3 & F3).
      rewrite E3. cbn [mbind option_bind].
      set (stv := record "assign" u (Some c)
                    (<[u := c]> st.1, (record "try" u (Some c) st).2)).
      specialize (Hrec h3 stv S3). unfold sim_result in Hrec.
      destruct (rec_s h3) as [[r h4]|], (rec stv) as [[r' st4]|]; try done.
      destruct Hrec as (<- & S4 & F4). cbn [mbind option_bind fst snd].
      assert (F14 : frame live hst h4)
        by (eapply frame_trans; [|exact F4]; eapply frame_trans; [|exact F3];
            eapply frame_trans; [exact F1 | exact F2]).
      destruct r.
      * by split_and!.
      * destruct (record_s_sim "backtrack" u (Some c) h4 st4 S4)
          as (h5 & E5 & S5 & F5).
        rewrite E5. cbn [mbind option_bind].
        pose proof (del_color_s_sim u h5 _ S5) as Hd.
        destruct (del_color_s live u h5) as [h6|],
                 (del_color u (record "backtrack" u (Some c) st4)) as [st6|];
          try done.
        destruct Hd as [S6 F6]. cbn [mbind option_bind].
        eapply sim_result_frame; [|by apply IH].
        eapply frame_trans; [exact F14 |]. eapply frame_trans; [exact F5 | exact F6].
    + destruct (record_s_sim "conflict" u (Some c) h1 _ S1) as (h2 & E2 & S2 & F2).
      rewrite E2. cbn [mbind option_bind].
      eapply sim_result_frame; [|by apply IH].
      eapply frame_trans; [exact F1 | exact F2].
Qed.

Lemma backtrack_s_sim rest :
  ∀ hst st, sim live hst st →
    sim_result live hst (backtrack_s adj k live rest hst) (backtrack adj k rest st).
Proof.
  induction rest as [|u rest IH]; intros hst st Hsim; simpl.
  - destruct (record_s_sim "done" "" None hst st Hsim) as (h1 & E1 & S1 & F1).
    rewrite E1. simpl. by split_and!.
  - by apply color_loop_s_sim.
Qed.
End StoreFacts.

Lemma store_wf_read live hst : store_wf live hst → is_Some (read_state live hst).
Proof.
  intros [Hlt _]. unfold read_state.
  destruct (lookup_lt_is_Some_2 hst.1 live Hlt) as [d ->]. simpl. eauto.
Qed.

Lemma sim_init : sim 0%nat ([∅], []) (∅, []).
Proof.
  split; [|done]. split; simpl; [lia |]. intros x Hx. inversion Hx.
Qed.

(** C2.  In the store-level model, where [colors] is one object updated in
    place and each step holds a reference:
    - recording a step allocates a new object, other than the live one, with
      the contents the live dictionary has at that moment;
    - an assignment [colors[u] = c] or a removal [del colors[u]] changes no
      recorded step and no dictionary a recorded step refers to;
    - across any call of [backtrack], from any well-formed state, the steps
      recorded before the call stay in place and the dictionaries they refer
      to read exactly as before, whatever the call did to the live object;
    - in the result of a run, no step refers to the live object, and each
      step read in the final heap shows the value [colors] had when the step
      was recorded (the trace of the value-level model); in particular every
      assign step still shows its vertex with its colour, also in a failed
      run, where the live dictionary has been emptied again. *)
Theorem snapshots_are_copies adj k order :
  (∀ live a u c hst hst' d,
     store_wf live hst → hst.1 !! live = Some d →
     record_s live a u c hst = Some hst' →
     ∃ l, hst'.2 = hst.2 ++ [mkStep a u c (Some l)] ∧ l ≠ live ∧
          hst'.1 !! l = Some d ∧ hst'.1 !! live = Some d) ∧
  (∀ live u c hst hst',
     store_wf live hst →
     set_color_s live u c hst = Some hst' ∨ del_color_s live u hst = Some hst' →
     hst'.2 = hst.2 ∧
     ∀ x, x ∈ hst.2 → read_step hst'.1 x = read_step hst.1 x) ∧
  (∀ live rest hst r hst',
     store_wf live hst →
     backtrack_s adj k live rest hst = Some (r, hst') →
     store_wf live hst' ∧
     (∃ ys, hst'.2 = hst.2 ++ ys) ∧
     (∀ x, x ∈ hst.2 → read_step hst'.1 x = read_step hst.1 x)) ∧
  (∀ b lc xs h,
     color_graph_backtracking_s adj k order = Some (b, lc, xs, h) →
     ∃ p s,
       color_graph_backtracking adj k order = Some (b, p, s) ∧
       h !! lc = Some p ∧
       read_step h <$> xs = s ∧
       (∀ x, x ∈ xs → ∃ l, partial x = Some l ∧ l ≠ 0%nat) ∧
       (∀ x, x ∈ xs → action x = "assign" →
             ∃ c d, color x = Some c ∧ partial (read_step h x) = Some d ∧
                    d !! node x = Some c) ∧
       (NoDup (dict_keys adj) → b = false → h !! 0%nat = Some ∅)).
Proof.
  split_and!.
  - intros live a u c hst hst' d [Hlt _] Hd. unfold record_s. rewrite Hd. simpl.
    intros [= <-]. simpl. exists (length hst.1). split_and!.
    + done.
    + lia.
    + by apply list_lookup_middle.
    + by apply lookup_app_l_Some.
  - intros live u c hst hst' Hwf Hop.
    destruct (store_wf_read _ _ Hwf) as [st Hst].
    assert (F : frame live hst hst').
    { destruct Hop as [Hop|Hop].
      - destruct (set_color_s_sim live u c hst st (conj Hwf Hst))
          as (h1 & E1 & _ & F). rewrite Hop in E1. by injection E1 as ->.
      - pose proof (del_color_s_sim live u hst st (conj Hwf Hst)) as H.
        rewrite Hop in H. destruct (del_color u st); [|done]. apply H. }
    split.
    + destruct Hop as [Hop|Hop]; unfold set_color_s, del_color_s in Hop;
        destruct (hst.1 !! live) as [d|]; simpl in Hop; try done.
      * by injection Hop as <-.
      * destruct (d !! u); simpl in Hop; [|done]. by injection Hop as <-.
    + intros x Hx. by apply (read_step_frame live hst).
  - intros live rest hst r hst' Hwf Hrun.
    destruct (store_wf_read _ _ Hwf) as [st Hst].
    pose proof (backtrack_s_sim adj k live rest hst st (conj Hwf Hst)) as H.
    rewrite Hrun in H. unfold sim_result in H.
    destruct (backtrack adj k rest st) as [[r' st']|]; [|done].
    destruct H as (_ & [Hwf' _] & F). split_and!; [done | apply F |].
    intros x Hx. by apply (read_step_frame live hst).
  - intros b lc xs h Hrun. unfold color_graph_backtracking_s in Hrun.
    unfold color_graph_backtracking.
    pose proof (backtrack_s_sim adj k 0%nat (order_nodes adj order) _ _ sim_init)
      as H.
    unfold sim_result in H. simpl in Hrun.
    destruct (backtrack_s adj k 0%nat (order_nodes adj order) ([∅], []))
      as [[r [h' xs']]|] eqn:Es; simpl in Hrun; [|done].
    destruct (backtrack adj k (order_nodes adj order) (∅, []))
      as [[r' [p' s']]|] eqn:Ev; [|done].
    destruct H as (<- & Hsim & _).
    pose proof (sim_live _ _ _ Hsim) as Hp. pose proof (sim_steps _ _ _ Hsim) as Hs.
    destruct Hsim as [[Hlt Hwf] _]. simpl in *.
    assert (Hread : ∀ h2, read_step (h' ++ h2) <$> xs' = s').
    { intros h2. rewrite <- Hs. apply list_fmap_ext. intros i x Hx.
      destruct (Hwf x) as (l & Hl & _ & Hl').
      { by apply list_elem_of_lookup_2 in Hx. }
      unfold read_step. rewrite Hl. simpl. by rewrite lookup_app_l. }
    assert (Hassign : ∀ h2 x, x ∈ xs' → action x = "assign" →
              ∃ c d, color x = Some c ∧ partial (read_step (h' ++ h2) x) = Some d ∧
                     d !! node x = Some c).
    { intros h2 x Hx Ha.
      destruct (backtrack_steps_grow adj k _ _ _ _ Ev) as (t & Ht & Hall).
      simpl in Ht. subst t. rewrite Forall_forall in Hall.
      destruct (Hall (read_step (h' ++ h2) x)) as (c & d & Hc & Hd & Hn).
      - rewrite <- (Hread h2). apply list_elem_of_fmap. eauto.
      - done.
      - by exists c, d. }
    assert (Hfail : NoDup (dict_keys adj) → r = false → p' = ∅).
    { intros Hnd ->.
      destruct (backtrack_explore adj k (order_nodes adj order))
        with (p := (∅ : assignment)) as (res & t & _ & Hout).
      - by apply order_nodes_NoDup.
      - intros u. by rewrite order_nodes_elem.
      - intros u _. apply lookup_empty.
      - rewrite Hout in Ev. destruct res; simpl in Ev; [done |].
        by injection Ev as <- _. }
    destruct r; simpl in Hrun; injection Hrun as <- <- <- <-.
    + exists p', s'. split_and!; [done | done | done | | |].
      * intros x Hx. destruct (Hwf x Hx) as (l & ? & ? & _). eauto.
      * intros x Hx Ha. destruct (Hassign [] x Hx Ha) as (c & d & ? & Hd & ?).
        rewrite app_nil_r in Hd. by exists c, d.
      * done.
    + exists ∅, s'. split_and!; [done | | | | |].
      * by apply list_lookup_middle.
      * apply Hread.
      * intros x Hx. destruct (Hwf x Hx) as (l & ? & ? & _). eauto.
      * intros x Hx Ha. by apply Hassign.
      * intros Hnd _. rewrite lookup_app_l by done.
        rewrite Hp. f_equal. by apply Hfail.
Qed.

Lemma snapshots_are_copies_witness :
  ∃ lc xs h x,
    color_graph_backtracking_s (build_adj (nodes triangle2) (edges triangle2))
      2 "natural" = Some (false, lc, xs, h) ∧
    xs !! 1%nat = Some x ∧ action x = "assign" ∧ node x = "A" ∧
    (∃ d, partial (read_step h x) = Some d ∧ d !! "A" = Some 0) ∧
    h !! 0%nat = Some ∅.
Proof.
  set (adj := build_adj (nodes triangle2) (edges triangle2)).
  destruct (snapshots_are_copies adj 2 "natural") as (_ & _ & _ & Hrun).
  assert (Hc : (λ r, (r.1.1.1, r.1.2 !! 1%nat))
                 <$> color_graph_backtracking_s adj 2 "natural"
               = Some (false, Some (mkStep "assign" "A" (Some 0) (Some 2%nat))))
    by (vm_compute; reflexivity).
  destruct (color_graph_backtracking_s adj 2 "natural")
    as [[[[b lc] xs] h]|] eqn:E; [|discriminate Hc].
  simpl in Hc. injection Hc as -> Hx.
  destruct (Hrun false lc xs h eq_refl) as (p & s & _ & _ & _ & _ & Hassign & Hlive).
  exists lc, xs, h, (mkStep "assign" "A" (Some 0) (Some 2%nat)).
  split; [reflexivity |]. split; [exact Hx |].
  split; [reflexivity |]. split; [reflexivity |]. split.
  - destruct (Hassign (mkStep "assign" "A" (Some 0) (Some 2%nat)))
      as (c & d & Hcol & Hd & Hn).
    + by apply list_elem_of_lookup_2 in Hx.
    + reflexivity.
    + simpl in Hcol. injection Hcol as <-. exists d. split; [exact Hd | exact Hn].
  - apply Hlive; [|reflexivity]. apply (bool_decide_unpack _). vm_compute. exact I.
Defined.

(** * Further properties of the code *)

(** ** The search is complete *)

(** A failed exploration leaves no proper colouring that extends the
    assignment it started from and colours the explored vertices. *)
Lemma explore_failure_no_extension adj k rest :
  ∀ p t, explore adj k rest p None t →
  ∀ q, p ⊆ q → (∀ u, u ∈ rest → ∃ c, q !! u = Some c ∧ 0 ≤ c < k) →
       ¬ proper adj q.
Proof.
  induction rest as [|u rest IH]; simpl; intros p t H q Hsub Hall Hprop.
  - by destruct H.
  - destruct (Hall u) as (cu & Hcu & Hge & Hlt); [left |].
    assert (Hrest : ∀ v, v ∈ rest → ∃ c, q !! v = Some c ∧ 0 ≤ c < k)
      by (intros v Hv; apply Hall; by right).
    clear Hall. remember 0 as c0 eqn:E in H, Hge. clear E.
    remember None as res eqn:Eres in H.
    induction H as [c Hc|c res t Hc Hcf H IHt|c q' t Hc Hnc Hex
                    |c t res t' Hc Hnc Hex H IHt].
    + lia.
    + destruct (decide (c = cu)) as [->|Hne]; [|apply IHt; [done | lia]].
      destruct Hcf as (v & Hv & Hpv).
      apply (Hprop u v cu Hv Hcu). by apply (lookup_weaken p).
    + done.
    + destruct (decide (c = cu)) as [->|Hne]; [|apply IHt; [done | lia]].
      apply (IH _ _ Hex q); [| done | done].
      by apply insert_subseteq_l.
Qed.

(** Among the colours from [c] on, a successful run of the transition
    algorithm commits the first one that some proper extension can use. *)
Lemma try_colors_success_choice adj k rest u p q' cu :
  p ⊆ q' → proper adj q' → q' !! u = Some cu →
  (∀ v, v ∈ rest → ∃ c, q' !! v = Some c ∧ 0 ≤ c < k) →
  ∀ c res t, try_colors adj k (explore adj k rest) u p c res t →
  ∀ q, res = Some q → c ≤ cu →
    ∃ c0 t0, c0 ≤ cu ∧ 0 ≤ c0 < k ∧ ¬ conflicts adj p u c0 ∧
             explore adj k rest (<[u := c0]> p) (Some q) t0.
Proof.
  intros Hsub Hprop Hcu Hrest c res t H.
  induction H as [c Hc|c res t Hc Hcf H IHt|c q0 t Hc Hnc Hex
                  |c t res t' Hc Hnc Hex H IHt]; intros q Hq Hle.
  - done.
  - destruct (decide (c = cu)) as [->|Hne]; [|apply IHt; [done | lia]].
    destruct Hcf as (v & Hv & Hpv).
    destruct (Hprop u v cu Hv Hcu). by apply (lookup_weaken p).
  - injection Hq as ->. by exists c, t.
  - destruct (decide (c = cu)) as [->|Hne]; [|apply IHt; [done | lia]].
    destruct (explore_failure_no_extension _ _ _ _ _ Hex q'); try done.
    by apply insert_subseteq_l.
Qed.

Lemma dict_get_elem {V} (d : dict V) u v : dict_get d u = Some v → (u, v) ∈ d.
Proof.
  induction d as [|[k0 v0] d IH]; simpl; [done |].
  case_decide as E.
  - intros [= <-]. subst. left.
  - intros H. right. by apply IH.
Qed.

Lemma coloringb_sound adj k q : coloringb adj k q = true → coloring adj k q.
Proof.
  unfold coloringb. rewrite forallb_forall. intros H. split.
  - intros u Hu. apply dict_get_keys in Hu as [ns Hns].
    apply dict_get_elem, list_elem_of_In, H in Hns. simpl in Hns.
    destruct (q !! u) as [c|]; [|done].
    apply andb_true_iff in Hns as [Hr _]. apply andb_true_iff in Hr as [H1 H2].
    exists c. split; [done | lia].
  - intros u v c (ns & Hns & Hv) Hu Hq.
    apply dict_get_elem, list_elem_of_In, H in Hns. simpl in Hns.
    rewrite Hu in Hns. apply andb_true_iff in Hns as [_ Hall].
    rewrite forallb_forall in Hall. apply list_elem_of_In, Hall in Hv.
    by rewrite bool_decide_eq_true_2 in Hv.
Qed.

(** The answer of a valid request, set against the colourings of its graph:
    a success returns one, a failure means there is none. *)
Lemma solve_explore_colorable req :
  2 ≤ k_colors req ≤ 5 → nodes req ≠ [] →
  ∃ resp, solve req = Some resp ∧
    (ok resp = true →
     coloring (build_adj (nodes req) (edges req)) (k_colors req) (colors resp)) ∧
    (ok resp = false →
     ¬ colorable (build_adj (nodes req) (edges req)) (k_colors req)).
Proof.
  intros Hk Hn.
  pose proof (build_adj_ok (nodes req) (edges req)) as Hadj.
  destruct (solve_explore req Hk Hn) as (res & t & Hex & _ & Hrun).
  eexists. split; [exact Hrun |]. destruct res as [q|]; simpl.
  - split; [intros _ | done].
    destruct (explore_success _ _ _ Hadj _ _ _ Hex (proper_empty _) _ eq_refl)
      as (Hprop & Hall & _).
    split; [|done]. intros u Hu. apply Hall. by rewrite order_nodes_elem.
  - split; [done | intros _ (q & Hall & Hprop)].
    apply (explore_failure_no_extension _ _ _ _ _ Hex q); [| | done].
    + apply map_empty_subseteq.
    + intros u Hu. apply Hall. by rewrite order_nodes_elem in Hu.
Qed.

(** X1.  Completeness of the search at the endpoint: for a request that
    passes validation, [solve] answers [ok = true] exactly when the graph
    built from the request has a proper colouring with [k] colours. *)
Theorem solve_ok_iff_colorable req :
  2 ≤ k_colors req ≤ 5 → nodes req ≠ [] →
  ∃ resp, solve req = Some resp ∧
    (ok resp = true ↔
     colorable (build_adj (nodes req) (edges req)) (k_colors req)).
Proof.
  intros Hk Hn.
  destruct (solve_explore_colorable req Hk Hn) as (resp & Hs & Ht & Hf).
  exists resp. split; [done |]. split.
  - intros H. exists (colors resp). by apply Ht.
  - intros H. destruct (ok resp); [done |]. by destruct Hf.
Qed.

Lemma solve_ok_iff_colorable_witness :
  ∃ resp, solve triangle3 = Some resp ∧
    (ok resp = true ↔
     colorable (build_adj (nodes triangle3) (edges triangle3)) 3).
Proof. apply (solve_ok_iff_colorable triangle3); [simpl; lia | done]. Defined.

Lemma colorable_ext adj1 adj2 k :
  (∀ u, u ∈ dict_keys adj1 ↔ u ∈ dict_keys adj2) →
  (∀ u v, adjacent adj1 u v ↔ adjacent adj2 u v) →
  colorable adj1 k → colorable adj2 k.
Proof.
  intros Hk Ha (q & Hall & Hprop). exists q. split.
  - intros u Hu. apply Hall. by apply Hk.
  - intros u v c Huv. apply Hprop. by apply Ha.
Qed.

Lemma Edge_eta e : e = mkEdge (src e) (dst e).
Proof. by destruct e. Qed.

(** X2.  The [ok] flag of the answer depends only on [k], on the set of
    vertices and on the set of edges read without direction: two requests
    that agree on these get the same flag, whatever the order of their
    lists, the repetitions in them, the direction of their edges and the
    ordering strategy. *)
Theorem solve_ok_invariant req1 req2 :
  k_colors req1 = k_colors req2 →
  (∀ u, u ∈ nodes req1 ↔ u ∈ nodes req2) →
  (∀ u v, (mkEdge u v ∈ edges req1 ∨ mkEdge v u ∈ edges req1) ↔
          (mkEdge u v ∈ edges req2 ∨ mkEdge v u ∈ edges req2)) →
  ok <$> solve req1 = ok <$> solve req2.
Proof.
  intros Hk Hn He.
  destruct (decide (2 ≤ k_colors req1 ≤ 5)) as [Hk1|Hk1].
  2: { rewrite !solve_rejects_k; [done | by rewrite <- Hk | done]. }
  assert (Hk2 : 2 ≤ k_colors req2 ≤ 5) by (by rewrite <- Hk).
  destruct (decide (nodes req1 = [])) as [E1|N1].
  { assert (E2 : nodes req2 = []).
    { destruct (nodes req2) as [|u l] eqn:E; [done |].
      assert (Hu : u ∈ nodes req1) by (apply Hn; left).
      rewrite E1 in Hu. inversion Hu. }
    by rewrite !solve_rejects_empty. }
  assert (N2 : nodes req2 ≠ []).
  { intros E2. destruct (nodes req1) as [|u l] eqn:E; [done |].
    assert (Hu : u ∈ nodes req2) by (apply Hn; left).
    rewrite E2 in Hu. inversion Hu. }
  assert (Hadj : ∀ ra rb,
            (∀ u, u ∈ nodes ra ↔ u ∈ nodes rb) →
            (∀ u v, (mkEdge u v ∈ edges ra ∨ mkEdge v u ∈ edges ra) ↔
                    (mkEdge u v ∈ edges rb ∨ mkEdge v u ∈ edges rb)) →
            ∀ u v, adjacent (build_adj (nodes ra) (edges ra)) u v →
                   adjacent (build_adj (nodes rb) (edges rb)) u v).
  { intros ra rb Hnab Heab u v. rewrite !build_adj_adjacent.
    intros (Hu & Hv & Hne & e & Hin & Hends).
    split_and!; [by apply Hnab | by apply Hnab | done |].
    assert (Hor : mkEdge u v ∈ edges rb ∨ mkEdge v u ∈ edges rb).
    { apply Heab. rewrite (Edge_eta e) in Hin.
      destruct Hends as [[-> ->]|[-> ->]]; auto. }
    destruct Hor as [H|H]; eexists; (split; [exact H |]); simpl; auto. }
  assert (Hiff : ∀ u v, adjacent (build_adj (nodes req1) (edges req1)) u v ↔
                        adjacent (build_adj (nodes req2) (edges req2)) u v).
  { intros u v. split.
    - apply (Hadj req1 req2); [exact Hn | exact He].
    - apply (Hadj req2 req1).
      + intros w. symmetry. apply Hn.
      + intros a b. symmetry. apply He. }
  assert (Hkeys : ∀ u, u ∈ dict_keys (build_adj (nodes req1) (edges req1)) ↔
                       u ∈ dict_keys (build_adj (nodes req2) (edges req2))).
  { intros u. by rewrite !build_adj_keys_elem. }
  destruct (solve_explore_colorable req1 Hk1 N1) as (r1 & -> & T1 & F1).
  destruct (solve_explore_colorable req2 Hk2 N2) as (r2 & -> & T2 & F2).
  simpl. f_equal.
  destruct (ok r1) eqn:O1, (ok r2) eqn:O2; try done.
  - destruct F2; [done |]. rewrite <- Hk.
    apply (colorable_ext (build_adj (nodes req1) (edges req1))); [done | done |].
    exists (colors r1). by apply T1.
  - destruct F1; [done |]. rewrite Hk.
    apply (colorable_ext (build_adj (nodes req2) (edges req2))).
    + intros u. symmetry. apply Hkeys.
    + intros u v. symmetry. apply Hiff.
    + exists (colors r2). by apply T2.
Qed.

Lemma mkEdge_inj a b c d : mkEdge a b = mkEdge c d ↔ a = c ∧ b = d.
Proof. split; [by intros [= -> ->] | by intros [-> ->]]. Qed.

Lemma solve_ok_invariant_witness :
  ok <$> solve triangle3 = ok <$> solve triangle3_shuffled.
Proof.
  apply (solve_ok_invariant triangle3 triangle3_shuffled).
  - reflexivity.
  - intros u. simpl. rewrite !elem_of_cons, !elem_of_nil. tauto.
  - intros u v. simpl. rewrite !elem_of_cons, !elem_of_nil, !mkEdge_inj. tauto.
Defined.

(** ** Which colouring is returned *)

(** The colouring found is the least one: where another proper colouring
    first departs from it along the explored vertices, the other has the
    larger colour. *)
Lemma explore_success_least adj k rest :
  adj_ok adj → NoDup rest →
  ∀ p res t, explore adj k rest p res t → proper adj p →
  ∀ q, res = Some q →
  ∀ q', p ⊆ q' → proper adj q' →
        (∀ v, v ∈ rest → ∃ c, q' !! v = Some c ∧ 0 ≤ c < k) →
  ∀ done u rest', rest = done ++ u :: rest' →
        (∀ v, v ∈ done → q' !! v = q !! v) →
        ∃ c c', q !! u = Some c ∧ q' !! u = Some c' ∧ c ≤ c'.
Proof.
  intros Hok. induction rest as [|u0 rest IH];
    intros Hnd p res t H Hp q Hq q' Hsub Hprop' Hall done u rest' Hsplit Hagree.
  - by destruct done.
  - apply NoDup_cons in Hnd as [Hu0 Hnd]. simpl in H.
    destruct (Hall u0) as (cu & Hcu & Hge & Hlt); [left |].
    assert (Hrest : ∀ v, v ∈ rest → ∃ c, q' !! v = Some c ∧ 0 ≤ c < k)
      by (intros v Hv; apply Hall; by right).
    destruct (try_colors_success_choice adj k rest u0 p q' cu Hsub Hprop' Hcu
                Hrest 0 res t H q Hq Hge)
      as (c0 & t0 & Hc0 & Hr0 & Hnc & Hex).
    pose proof (proper_insert adj p u0 c0 Hok Hp Hnc) as Hp0.
    destruct (explore_success adj k rest Hok _ _ _ Hex Hp0 q eq_refl)
      as (_ & _ & Hframe).
    assert (Hqu0 : q !! u0 = Some c0)
      by (rewrite (Hframe u0 Hu0); apply lookup_insert_eq).
    destruct done as [|d done]; simpl in Hsplit; injection Hsplit as <- ->.
    + by exists c0, cu.
    + apply (IH Hnd _ _ _ Hex Hp0 q eq_refl q') with (done := done) (rest' := rest');
        try done.
      * apply insert_subseteq_l; [|done]. rewrite <- Hqu0. apply Hagree. left.
      * intros v Hv. apply Hagree. by right.
Qed.

(** Exchanging two colours of the range keeps a colouring a colouring. *)
Lemma coloring_swap adj k q a b :
  0 ≤ a < k → 0 ≤ b < k → coloring adj k q →
  coloring adj k (swap_color a b <$> q).
Proof.
  intros Ha Hb [Hall Hprop]. split.
  - intros u Hu. destruct (Hall u Hu) as (c & Hc & Hr).
    exists (swap_color a b c). rewrite lookup_fmap, Hc. split; [done |].
    unfold swap_color. repeat case_decide; lia.
  - intros u v c Huv. rewrite !lookup_fmap.
    destruct (q !! u) as [cu|] eqn:Eu; simpl; [|done].
    destruct (q !! v) as [cv|] eqn:Ev; simpl; [|done].
    intros [= <-] [= E]. apply (Hprop u v cu Huv Eu). rewrite Ev. f_equal.
    unfold swap_color in E. repeat case_decide; lia.
Qed.

(** A successful answer, read as an exploration of the ordered vertices. *)
Lemma solve_ok_least req resp :
  solve req = Some resp → ok resp = true →
  ∀ q', coloring (build_adj (nodes req) (edges req)) (k_colors req) q' →
  ∀ done u rest',
    order_nodes (build_adj (nodes req) (edges req)) (order_or_degree (order req))
      = done ++ u :: rest' →
    (∀ v, v ∈ done → q' !! v = colors resp !! v) →
    ∃ c c', colors resp !! u = Some c ∧ q' !! u = Some c' ∧ c ≤ c'.
Proof.
  intros Hs Hok q' [Hall Hprop] done u rest' Hsplit Hagree.
  destruct (solve_ok_explore req resp Hs Hok) as [Hk Hex].
  pose proof (build_adj_ok (nodes req) (edges req)) as Hadj.
  apply (explore_success_least _ _ _ Hadj
           (order_nodes_NoDup _ _ (adj_keys_nodup _ Hadj))
           _ _ _ Hex (proper_empty _) _ eq_refl q') with (done := done) (rest' := rest');
    try done.
  - apply map_empty_subseteq.
  - intros v Hv. apply Hall. by rewrite order_nodes_elem in Hv.
Qed.

(** X3.  The colouring returned on success is the least proper colouring
    in the order of the search: compared with any proper colouring of the
    graph with colours in [[0, k)], at the first vertex of the search order
    where the two differ the returned one has the smaller colour. *)
Theorem solve_returns_least_coloring req resp q' done u rest' :
  solve req = Some resp → ok resp = true →
  coloring (build_adj (nodes req) (edges req)) (k_colors req) q' →
  order_nodes (build_adj (nodes req) (edges req)) (order_or_degree (order req))
    = done ++ u :: rest' →
  (∀ v, v ∈ done → q' !! v = colors resp !! v) →
  ∃ c c', colors resp !! u = Some c ∧ q' !! u = Some c' ∧ c ≤ c'.
Proof. intros Hs Hok Hq' Hsplit Hagree. by eapply solve_ok_least. Qed.

(** X4.  In a successful answer the first vertex of the search order has
    colour [0]. *)
Theorem first_vertex_gets_zero req resp u rest :
  solve req = Some resp → ok resp = true →
  order_nodes (build_adj (nodes req) (edges req)) (order_or_degree (order req))
    = u :: rest →
  colors resp !! u = Some 0.
Proof.
  intros Hs Hok Hord.
  destruct (solve_ok_explore req resp Hs Hok) as [Hk Hex].
  pose proof (build_adj_ok (nodes req) (edges req)) as Hadj.
  destruct (explore_success _ _ _ Hadj _ _ _ Hex (proper_empty _) _ eq_refl)
    as (Hprop & Hall & _).
  assert (Hcol : coloring (build_adj (nodes req) (edges req)) (k_colors req)
                   (colors resp)).
  { split; [|done]. intros v Hv. apply Hall. by rewrite order_nodes_elem. }
  destruct (Hall u) as (c & Hc & Hr); [rewrite Hord; left |].
  assert (H0 : 0 ≤ 0 < k_colors req) by lia.
  destruct (solve_ok_least req resp Hs Hok _
              (coloring_swap _ _ _ 0 c H0 Hr Hcol) [] u rest Hord)
    as (c1 & c2 & H1 & H2 & Hle).
  { intros v Hv. inversion Hv. }
  rewrite Hc in H1. injection H1 as <-.
  rewrite lookup_fmap, Hc in H2. simpl in H2. injection H2 as <-.
  unfold swap_color in Hle. rewrite Hc. f_equal.
  repeat case_decide; lia.
Qed.

Lemma solve_returns_least_coloring_witness :
  ∃ resp c c',
    solve triangle3 = Some resp ∧
    colors resp !! "B" = Some c ∧
    (<["C" := 1]> (<["B" := 2]> (<["A" := 0]> ∅)) : assignment) !! "B" = Some c' ∧
    c ≤ c'.
Proof.
  destruct (solve_total triangle3) as [resp E].
  assert (H : (λ r, (ok r, colors r !! "A")) <$> solve triangle3
              = Some (true, Some 0)) by (vm_compute; reflexivity).
  rewrite E in H. simpl in H. injection H as Hok HA.
  destruct (solve_returns_least_coloring triangle3 resp
              (<["C" := 1]> (<["B" := 2]> (<["A" := 0]> ∅)))
              ["A"] "B" ["C"] E Hok) as (c & c' & Hc & Hc' & Hle).
  - apply coloringb_sound. vm_compute. reflexivity.
  - vm_compute. reflexivity.
  - intros v Hv. apply list_elem_of_singleton in Hv as ->. rewrite HA.
    vm_compute. reflexivity.
  - exists resp, c, c'. split; [exact E |]. split; [exact Hc |].
    split; [exact Hc' | exact Hle].
Defined.

Lemma first_vertex_gets_zero_witness :
  ∃ resp, solve triangle3 = Some resp ∧ colors resp !! "A" = Some 0.
Proof.
  destruct (solve_total triangle3) as [resp E]. exists resp. split; [done |].
  assert (H : ok <$> solve triangle3 = Some true) by (vm_compute; reflexivity).
  rewrite E in H. simpl in H. injection H as Hok.
  apply (first_vertex_gets_zero triangle3 resp "A" ["B"; "C"] E Hok).
  vm_compute. reflexivity.
Defined.

(** ** The shape of the trace *)

(** What [solve] answers: a rejection without steps, or the result of the
    exploration of the ordered vertices of the built graph. *)
Lemma solve_inv req resp :
  solve req = Some resp →
  (steps resp = [] ∧ ok resp = false ∧ colors resp = ∅ ∧
   (¬ (2 ≤ k_colors req ≤ 5) ∨ nodes req = [])) ∨
  (2 ≤ k_colors req ≤ 5 ∧ nodes req ≠ [] ∧
   ∃ res,
     explore (build_adj (nodes req) (edges req)) (k_colors req)
       (order_nodes (build_adj (nodes req) (edges req))
          (order_or_degree (order req))) ∅ res (steps resp) ∧
     match res with
     | Some q => ok resp = true ∧ colors resp = q
     | None => ok resp = false ∧ colors resp = ∅
     end).
Proof.
  intros Hs.
  destruct (decide (2 ≤ k_colors req ≤ 5)) as [Hk|Hk].
  - destruct (decide (nodes req = [])) as [Hn|Hn].
    + rewrite solve_rejects_empty in Hs by done. injection Hs as <-.
      left. simpl. auto.
    + destruct (solve_explore req Hk Hn) as (res & t & Hex & _ & Hrun).
      rewrite Hrun in Hs. injection Hs as <-. right.
      split; [done |]. split; [done |]. exists res. by destruct res.
  - rewrite solve_rejects_k in Hs by done. injection Hs as <-.
    left. simpl. auto.
Qed.

(** A successful exploration ends with its only [done] step, which shows
    the final assignment; a failed one has no [done] step. *)
Lemma explore_done_step adj k rest :
  ∀ p res t, explore adj k rest p res t →
  match res with
  | Some q => ∃ t0, t = t0 ++ [mkStep "done" "" None (Some q)] ∧
                    Forall (λ x, action x ≠ "done") t0
  | None => Forall (λ x, action x ≠ "done") t
  end.
Proof.
  induction rest as [|u rest IH]; simpl; intros p res t H.
  - destruct H as [-> ->]. by exists [].
  - remember 0 as c0 eqn:E in H. clear E.
    induction H as [c Hc|c res t Hc Hcf H IHt|c q' t Hc Hnc Hex
                    |c t res t' Hc Hnc Hex H IHt].
    + constructor.
    + destruct res as [q|].
      * destruct IHt as (t0 & -> & Hall). eexists (_ :: _ :: t0).
        split; [done |]. by repeat constructor.
      * by repeat constructor.
    + destruct (IH _ _ _ Hex) as (t0 & -> & Hall). eexists (_ :: _ :: t0).
      split; [done |]. by repeat constructor.
    + pose proof (IH _ _ _ Hex) as Hsub. simpl in Hsub.
      destruct res as [q|].
      * destruct IHt as (t0 & -> & Hall).
        eexists (_ :: _ :: t ++ _ :: t0). split.
        { simpl. by rewrite <- app_assoc. }
        repeat constructor; try done.
        apply Forall_app. split; [done |]. by constructor.
      * repeat constructor; try done.
        apply Forall_app. split; [done |]. by constructor.
Qed.

(** X5.  The trace of a successful answer ends with its only [done] step,
    whose vertex is empty, whose colour is absent and whose snapshot is the
    returned assignment; the trace of any other answer has no [done] step. *)
Theorem done_step_closes_success req resp :
  solve req = Some resp →
  if ok resp
  then ∃ t0, steps resp = t0 ++ [mkStep "done" "" None (Some (colors resp))] ∧
             Forall (λ x, action x ≠ "done") t0
  else Forall (λ x, action x ≠ "done") (steps resp).
Proof.
  intros Hs. destruct (solve_inv req resp Hs)
    as [(Ht & Hok & _)|(_ & _ & res & Hex & Hres)].
  - rewrite Hok, Ht. constructor.
  - pose proof (explore_done_step _ _ _ _ _ _ Hex) as H.
    destruct res as [q|]; destruct Hres as [-> Hc]; [by rewrite Hc | done].
Qed.

Lemma done_step_closes_success_witness :
  ∃ resp t0,
    solve single_edge = Some resp ∧
    steps resp = t0 ++ [mkStep "done" "" None (Some (colors resp))] ∧
    Forall (λ x, action x ≠ "done") t0.
Proof.
  destruct (solve_total single_edge) as [resp E].
  pose proof (done_step_closes_success single_edge resp E) as H.
  assert (Hok : ok <$> solve single_edge = Some true) by (vm_compute; reflexivity).
  rewrite E in Hok. simpl in Hok. injection Hok as Hok. rewrite Hok in H.
  destruct H as (t0 & H1 & H2). by exists resp, t0.
Defined.

Lemma step_ok_mono k vs vs' x :
  (∀ v, v ∈ vs → v ∈ vs') → step_ok k vs x → step_ok k vs' x.
Proof.
  intros Hsub [Hp [Hd|(Ha & Hn & Hc)]]; split; try done; [by left |].
  right. split_and!; [done | by apply Hsub | done].
Qed.

Lemma step_ok_move k u vs a c d :
  a ∈ ["try"; "assign"; "conflict"; "backtrack"] → 0 ≤ c < k →
  step_ok k (u :: vs) (mkStep a u (Some c) (Some d)).
Proof.
  intros Ha Hc. split; [by eexists |]. right. simpl.
  split_and!; [done | left | by exists c].
Qed.

Lemma explore_steps_ok adj k rest :
  ∀ p res t, explore adj k rest p res t → Forall (step_ok k rest) t.
Proof.
  induction rest as [|u rest IH]; simpl; intros p res t H.
  - destruct H as [_ ->]. constructor; [|constructor].
    split; [by eexists | by left].
  - assert (Hsub : ∀ q r t0, explore adj k rest q r t0 →
                             Forall (step_ok k (u :: rest)) t0).
    { intros q r t0 Hex. eapply Forall_impl; [by eapply IH |].
      intros x. apply step_ok_mono. intros v Hv. by right. }
    remember 0 as c0 eqn:E in H. clear E.
    induction H as [c Hc|c res t Hc Hcf H IHt|c q' t Hc Hnc Hex
                    |c t res t' Hc Hnc Hex H IHt].
    + constructor.
    + apply Forall_cons_2; [apply step_ok_move; [in_list | done] |].
      apply Forall_cons_2; [apply step_ok_move; [in_list | done] | done].
    + apply Forall_cons_2; [apply step_ok_move; [in_list | done] |].
      apply Forall_cons_2; [apply step_ok_move; [in_list | done] |].
      by eapply Hsub.
    + apply Forall_cons_2; [apply step_ok_move; [in_list | done] |].
      apply Forall_cons_2; [apply step_ok_move; [in_list | done] |].
      apply Forall_app_2; [by eapply Hsub |].
      apply Forall_cons_2; [apply step_ok_move; [in_list | done] | done].
Qed.

(** X6.  In every response of [solve] every step of the trace is well
    formed: it carries a snapshot, and it is either a [done] step with the
    empty string as vertex and no colour, or a [try], [assign], [conflict]
    or [backtrack] step for a vertex of the request with a colour in
    [[0, k)]. *)
Theorem trace_steps_well_formed req resp :
  solve req = Some resp →
  Forall (step_ok (k_colors req) (nodes req)) (steps resp).
Proof.
  intros Hs.
  destruct (solve_inv req resp Hs)
    as [(Ht & _)|(_ & _ & res & Hex & _)].
  - rewrite Ht. constructor.
  - eapply Forall_impl; [by eapply explore_steps_ok |].
    intros x. apply step_ok_mono. intros v.
    by rewrite order_nodes_elem, build_adj_keys_elem.
Qed.

Lemma trace_steps_well_formed_witness :
  ∃ resp, solve triangle2 = Some resp ∧ length (steps resp) = 24%nat ∧
          Forall (step_ok 2 ["A"; "B"; "C"]) (steps resp).
Proof.
  destruct (solve_total triangle2) as [resp E]. exists resp.
  assert (Hn : (length ∘ steps) <$> solve triangle2 = Some 24%nat)
    by (vm_compute; reflexivity).
  rewrite E in Hn. simpl in Hn. injection Hn as Hn.
  split; [exact E |]. split; [exact Hn |].
  exact (trace_steps_well_formed triangle2 resp E).
Defined.

Lemma count_action_cons a x tr :
  count_action a (x :: tr) =
    ((if bool_decide (action x = a) then 1 else 0) + count_action a tr)%nat.
Proof.
  unfold count_action. rewrite filter_cons.
  case_decide; [by rewrite bool_decide_eq_true_2 | by rewrite bool_decide_eq_false_2].
Qed.

Lemma count_action_app a tr1 tr2 :
  count_action a (tr1 ++ tr2) = (count_action a tr1 + count_action a tr2)%nat.
Proof. unfold count_action. by rewrite filter_app, length_app. Qed.

Lemma count_action_nil a : count_action a [] = 0%nat.
Proof. done. Qed.

(** The book-keeping of an exploration: how the numbers of steps of each
    action are tied together. *)
Lemma explore_counts adj k rest :
  ∀ p res t, explore adj k rest p res t →
  count_action "try" t = (count_action "assign" t + count_action "conflict" t)%nat ∧
  count_action "assign" t =
    (count_action "backtrack" t +
     match res with Some _ => length rest | None => 0 end)%nat ∧
  count_action "done" t = match res with Some _ => 1 | None => 0 end%nat ∧
  length t = (count_action "try" t + count_action "assign" t +
              count_action "conflict" t + count_action "backtrack" t +
              count_action "done" t)%nat.
Proof.
  induction rest as [|u rest IH]; simpl; intros p res t H.
  - destruct H as [-> ->]. by vm_compute.
  - remember 0 as c0 eqn:E in H. clear E.
    induction H as [c Hc|c res t Hc Hcf H IHt|c q' t Hc Hnc Hex
                    |c t res t' Hc Hnc Hex H IHt].
    + done.
    + destruct IHt as (H1 & H2 & H3 & H4).
      rewrite !count_action_cons. simpl. rewrite H4. lia.
    + destruct (IH _ _ _ Hex) as (H1 & H2 & H3 & H4).
      rewrite !count_action_cons. simpl. rewrite H4. lia.
    + destruct (IH _ _ _ Hex) as (H1 & H2 & H3 & H4).
      destruct IHt as (G1 & G2 & G3 & G4).
      rewrite !count_action_cons, !count_action_app, !count_action_cons.
      simpl. rewrite length_app. simpl. rewrite H4, G4. lia.
Qed.

(** X7.  Book-keeping of the trace.  Every request is answered, and in the
    trace: each [try] step is matched by one [assign] or [conflict] step;
    the [assign] steps are the [backtrack] steps plus, on success, one per
    vertex of the graph; there is one [done] step on success and none
    otherwise; and there is no step of any other kind, so that the trace
    has [3b + 2c] steps on failure and [3b + 2c + 2n + 1] on success, for
    [b] backtrack steps, [c] conflict steps and [n] vertices. *)
Theorem trace_step_counts req :
  ∃ resp, solve req = Some resp ∧
    let t := steps resp in
    let n := if ok resp
             then length (dict_keys (build_adj (nodes req) (edges req)))
             else 0%nat in
    count_action "try" t = (count_action "assign" t + count_action "conflict" t)%nat ∧
    count_action "assign" t = (count_action "backtrack" t + n)%nat ∧
    count_action "done" t = (if ok resp then 1 else 0)%nat ∧
    length t = (3 * count_action "backtrack" t + 2 * count_action "conflict" t
                + if ok resp then 2 * n + 1 else 0)%nat.
Proof.
  destruct (solve_total req) as [resp Hs]. exists resp. split; [done |].
  destruct (solve_inv req resp Hs)
    as [(Ht & Hok & _)|(_ & _ & res & Hex & Hres)].
  - rewrite Ht, Hok. by vm_compute.
  - destruct (explore_counts _ _ _ _ _ _ Hex) as (H1 & H2 & H3 & H4).
    rewrite (Permutation_length (order_nodes_perm _ _)) in H2.
    destruct res as [q|]; destruct Hres as [-> _]; simpl; lia.
Qed.

Lemma insert_dom_snoc (p : assignment) u c done :
  (∀ v, is_Some (p !! v) ↔ v ∈ done) →
  ∀ v, is_Some (<[u := c]> p !! v) ↔ v ∈ done ++ [u].
Proof.
  intros Hdone v.
  rewrite lookup_insert_is_Some, elem_of_app, list_elem_of_singleton, Hdone.
  destruct (decide (u = v)) as [->|Hne]; split; intros H; auto.
  - destruct H as [?|[_ ?]]; [congruence | auto].
  - destruct H as [?|?]; [auto | congruence].
Qed.

(** The snapshots of an exploration colour the vertices already coloured
    on entry and an initial segment of the vertices explored. *)
Lemma explore_snapshot_domains adj k rest :
  ∀ p res t, explore adj k rest p res t →
  ∀ done, (∀ v, is_Some (p !! v) ↔ v ∈ done) →
  ∀ x d, x ∈ t → partial x = Some d →
    ∃ i, (i ≤ length rest)%nat ∧ ∀ v, is_Some (d !! v) ↔ v ∈ done ++ take i rest.
Proof.
  induction rest as [|u rest IH]; simpl; intros p res t H done Hdone x d Hx Hd.
  - destruct H as [_ ->]. apply list_elem_of_singleton in Hx as ->.
    simpl in Hd. injection Hd as <-. exists 0%nat. split; [done |].
    intros v. by rewrite app_nil_r.
  - assert (H0 : ∃ i, (i ≤ S (length rest))%nat ∧
                      ∀ v, is_Some (p !! v) ↔ v ∈ done ++ take i (u :: rest)).
    { exists 0%nat. split; [lia |]. intros v. simpl. by rewrite app_nil_r. }
    assert (H1 : ∀ c, ∃ i, (i ≤ S (length rest))%nat ∧
                  ∀ v, is_Some (<[u := c]> p !! v) ↔ v ∈ done ++ take i (u :: rest)).
    { intros c. exists 1%nat. split; [lia |]. intros v. simpl. rewrite take_0.
      by apply insert_dom_snoc. }
    assert (Hsub : ∀ c r t0, explore adj k rest (<[u := c]> p) r t0 → x ∈ t0 →
              ∃ i, (i ≤ S (length rest))%nat ∧
                   ∀ v, is_Some (d !! v) ↔ v ∈ done ++ take i (u :: rest)).
    { intros c r t0 Hex Hx0.
      destruct (IH _ _ _ Hex (done ++ [u])) with (x := x) (d := d)
        as (i & Hi & Hdom); try done.
      - by apply insert_dom_snoc.
      - exists (S i). split; [lia |]. intros v. rewrite Hdom. simpl.
        by rewrite <- app_assoc. }
    remember 0 as c0 eqn:E in H. clear E.
    induction H as [c Hc|c res t Hc Hcf H IHt|c q' t Hc Hnc Hex
                    |c t res t' Hc Hnc Hex H IHt].
    + inversion Hx.
    + rewrite !elem_of_cons in Hx. destruct Hx as [->|[->|Hx]];
        [simpl in Hd; by injection Hd as <- .. | by apply IHt].
    + rewrite !elem_of_cons in Hx. destruct Hx as [->|[->|Hx]];
        [simpl in Hd; by injection Hd as <- | simpl in Hd; injection Hd as <-;
         apply H1 | by eapply Hsub].
    + rewrite !elem_of_cons, elem_of_app, elem_of_cons in Hx.
      destruct Hx as [->|[->|[Hx|[->|Hx]]]].
      * simpl in Hd. by injection Hd as <-.
      * simpl in Hd. injection Hd as <-. apply H1.
      * by eapply Hsub.
      * simpl in Hd. injection Hd as <-. apply H1.
      * by apply IHt.
Qed.

(** X8.  Every request is answered, and every snapshot in the trace colours
    exactly an initial segment of the search order: the vertices are
    coloured in that order and uncoloured in the reverse order, so a
    snapshot never has a coloured vertex after an uncoloured one. *)
Theorem trace_snapshots_are_prefixes req :
  ∃ resp, solve req = Some resp ∧
    ∀ x d, x ∈ steps resp → partial x = Some d →
      ∃ i, ∀ v, is_Some (d !! v) ↔
                v ∈ take i (order_nodes (build_adj (nodes req) (edges req))
                              (order_or_degree (order req))).
Proof.
  destruct (solve_total req) as [resp Hs]. exists resp. split; [done |].
  intros x d Hx Hd.
  destruct (solve_inv req resp Hs)
    as [(Ht & _)|(_ & _ & res & Hex & _)].
  - rewrite Ht in Hx. inversion Hx.
  - destruct (explore_snapshot_domains _ _ _ _ _ _ Hex []) with (x := x) (d := d)
      as (i & _ & Hdom); try done.
    + intros v. rewrite lookup_empty. split; [by intros [? ?] | by inversion 1].
    + by exists i.
Qed.

Lemma trace_bound_pow k n : 2 ≤ k → Z.of_nat (trace_bound k n) + 6 ≤ 7 * k ^ Z.of_nat n.
Proof.
  intros Hk. induction n as [|n IH].
  - simpl. lia.
  - rewrite Nat2Z.inj_succ, Z.pow_succ_r by lia.
    cbn [trace_bound]. rewrite Nat2Z.inj_mul, Z2Nat.id by lia.
    rewrite Nat2Z.inj_add. nia.
Qed.

(** One vertex and its colours from [c] on add at most [B + 3] steps per
    colour, where [B] bounds the exploration of the remaining vertices. *)
Lemma explore_length_bound adj k rest :
  ∀ p res t, explore adj k rest p res t →
  (length t ≤ trace_bound k (length rest))%nat.
Proof.
  induction rest as [|u rest IH]; simpl; intros p res t H.
  - destruct H as [_ ->]. done.
  - set (B := trace_bound k (length rest)) in *.
    assert (Hgen : ∀ c, try_colors adj k (explore adj k rest) u p c res t →
              (length t ≤ (Z.to_nat k - Z.to_nat c) * (B + 3))%nat).
    { clear H. intros c H.
      induction H as [c Hc|c res t Hc Hcf H IHt|c q' t Hc Hnc Hex
                      |c t res t' Hc Hnc Hex H IHt].
      - simpl. lia.
      - simpl. replace (Z.to_nat (c + 1)) with (S (Z.to_nat c)) in IHt by lia.
        assert (Z.to_nat c < Z.to_nat k)%nat by lia. nia.
      - simpl. pose proof (IH _ _ _ Hex). fold B in H.
        assert (Z.to_nat c < Z.to_nat k)%nat by lia. nia.
      - simpl. rewrite length_app. simpl.
        replace (Z.to_nat (c + 1)) with (S (Z.to_nat c)) in IHt by lia.
        pose proof (IH _ _ _ Hex) as Hs. fold B in Hs.
        assert (Z.to_nat c < Z.to_nat k)%nat by lia. nia. }
    specialize (Hgen 0 H). simpl in Hgen. lia.
Qed.

(** X9.  The trace of a request that passes validation has at most
    [7 * k ^ n] steps, [n] being the number of vertices of the graph. *)
Theorem trace_length_bound req :
  2 ≤ k_colors req ≤ 5 →
  ∃ resp, solve req = Some resp ∧
    Z.of_nat (length (steps resp)) ≤
      7 * k_colors req ^
            Z.of_nat (length (dict_keys (build_adj (nodes req) (edges req)))).
Proof.
  intros Hk. destruct (solve_total req) as [resp Hs]. exists resp.
  split; [done |].
  destruct (solve_inv req resp Hs)
    as [(Ht & _)|(_ & _ & res & Hex & _)].
  - rewrite Ht. simpl.
    assert (0 < k_colors req ^
                Z.of_nat (length (dict_keys (build_adj (nodes req) (edges req)))))
      by (apply Z.pow_pos_nonneg; lia).
    lia.
  - pose proof (explore_length_bound _ _ _ _ _ _ Hex) as Hlen.
    rewrite (Permutation_length (order_nodes_perm _ _)) in Hlen.
    pose proof (trace_bound_pow (k_colors req)
                  (length (dict_keys (build_adj (nodes req) (edges req))))) as Hb.
    lia.
Qed.

Lemma trace_length_bound_witness :
  ∃ resp, solve triangle2 = Some resp ∧
          Z.of_nat (length (steps resp)) ≤ 7 * 2 ^ 3.
Proof. apply (trace_length_bound triangle2). simpl. lia. Defined.

(** ** The graph, read off the request *)

Lemma first_occurrences_elem l u : u ∈ first_occurrences l ↔ u ∈ l.
Proof.
  induction l as [|x l IH]; simpl; [done |].
  rewrite !elem_of_cons, list_elem_of_filter, IH.
  destruct (decide (u = x)); tauto.
Qed.

Lemma first_occurrences_NoDup l : NoDup (first_occurrences l).
Proof.
  induction l as [|x l IH]; simpl; [constructor |].
  apply NoDup_cons. split; [|by apply NoDup_filter].
  rewrite list_elem_of_filter. by intros [H _].
Qed.

Lemma filter_all_id {A} (P : A → Prop) `{!∀ x, Decision (P x)} (l : list A) :
  Forall P l → filter P l = l.
Proof.
  induction 1 as [|x l Hx Hl IH]; [done |].
  by rewrite filter_cons, decide_True, IH.
Qed.

Lemma filter_ne_id (x : string) (l : list string) :
  x ∉ l → filter (λ y, y ≠ x) l = l.
Proof.
  induction l as [|y l IH]; intros H; [done |].
  apply not_elem_of_cons in H as [Hxy Hx].
  rewrite filter_cons, decide_True by done. f_equal. by apply IH.
Qed.

Lemma first_occurrences_id l : NoDup l → first_occurrences l = l.
Proof.
  induction l as [|x l IH]; simpl; intros H; [done |].
  apply NoDup_cons in H as [Hx Hl]. rewrite IH by done. f_equal.
  by apply filter_ne_id.
Qed.

(** Appending to [l] what is new in [w :: X], first occurrences only, is
    adding [w] to [l] unless present and then appending what is new in [X]. *)
Lemma first_occurrences_step (l : list string) w (X : list string) :
  (if bool_decide (w ∈ l) then l else l ++ [w]) ++
    filter (λ y, y ∉ (if bool_decide (w ∈ l) then l else l ++ [w])) X
  = l ++ filter (λ y, y ∉ l) (w :: filter (λ y, y ≠ w) X).
Proof.
  rewrite filter_cons, list_filter_filter. case_bool_decide as Hw.
  - rewrite decide_False by (intros H; by apply H). f_equal.
    apply list_filter_iff. intros y. split; [|tauto].
    intros Hy. split; [done |]. by intros ->.
  - rewrite decide_True by done. rewrite <- app_assoc. simpl. do 2 f_equal.
    apply list_filter_iff. intros y.
    rewrite elem_of_app, list_elem_of_singleton. tauto.
Qed.

Lemma dict_keys_set {V} (d : dict V) k v :
  dict_keys (dict_set d k v) =
    if bool_decide (k ∈ dict_keys d) then dict_keys d else dict_keys d ++ [k].
Proof.
  case_bool_decide; [by apply dict_keys_set_present | by apply dict_keys_set_absent].
Qed.

Lemma init_adj_keys_first (d : dict (list string)) ns :
  dict_keys (foldl (λ d u, dict_set d u []) d ns) =
    dict_keys d ++ filter (λ y, y ∉ dict_keys d) (first_occurrences ns).
Proof.
  revert d. induction ns as [|n ns IH]; intros d; simpl.
  - by rewrite filter_nil, app_nil_r.
  - rewrite IH, dict_keys_set. apply first_occurrences_step.
Qed.

(** X10.  The keys of the built graph are the vertex names of the request,
    each at the place of its first occurrence: a name given several times is
    one vertex, the list of keys has no repetition and the same members as
    the vertex list, and it is the vertex list itself when that has no
    repetition. *)
Theorem build_adj_keys_first_occurrences ns es :
  dict_keys (build_adj ns es) = first_occurrences ns ∧
  NoDup (first_occurrences ns) ∧
  (∀ u, u ∈ first_occurrences ns ↔ u ∈ ns) ∧
  (NoDup ns → first_occurrences ns = ns).
Proof.
  split_and!.
  - rewrite build_adj_keys. unfold init_adj. rewrite init_adj_keys_first. simpl.
    apply filter_all_id, Forall_forall. intros y _ Hy. inversion Hy.
  - apply first_occurrences_NoDup.
  - apply first_occurrences_elem.
  - apply first_occurrences_id.
Qed.

Lemma build_adj_keys_first_occurrences_witness :
  dict_keys (build_adj (nodes triangle3_shuffled) (edges triangle3_shuffled))
  = ["C"; "B"; "A"].
Proof.
  destruct (build_adj_keys_first_occurrences (nodes triangle3_shuffled)
              (edges triangle3_shuffled)) as (H & _).
  rewrite H. reflexivity.
Defined.

(** The neighbour list of [u] after one more edge. *)
Lemma add_edge_get ns adj e u l :
  (∀ v, v ∈ dict_keys adj ↔ v ∈ ns) →
  dict_get adj u = Some l →
  dict_get (add_edge adj e) u =
    Some (match other_end ns u e with
          | Some w => if bool_decide (w ∈ l) then l else l ++ [w]
          | None => l
          end).
Proof.
  intros Hkeys Hu. unfold add_edge, other_end.
  destruct (dict_mem adj (src e) && dict_mem adj (dst e)
            && bool_decide (src e ≠ dst e)) eqn:G.
  - apply add_edge_guard in G as (Hs & Hd & Hne).
    rewrite bool_decide_eq_true_2 by (by rewrite <- !Hkeys).
    apply dict_get_keys in Hs as [ls Hls]. apply dict_get_keys in Hd as [ld Hld].
    rewrite !add_neighbor_get, Hls. rewrite (decide_False (P := src e = dst e)) by done.
    rewrite Hld.
    destruct (decide (src e = u)) as [Esu|Hsu].
    + rewrite decide_False by congruence.
      rewrite Esu, Hu in Hls. by injection Hls as ->.
    + destruct (decide (dst e = u)) as [Edu|Hdu]; [|done].
      rewrite Edu, Hu in Hld. by injection Hld as ->.
  - rewrite bool_decide_eq_false_2; [done |].
    intros K. rewrite <- !Hkeys in K. apply add_edge_guard in K. congruence.
Qed.

Lemma foldl_add_edge_get ns es :
  ∀ adj u l,
    (∀ v, v ∈ dict_keys adj ↔ v ∈ ns) →
    dict_get adj u = Some l →
    dict_get (foldl add_edge adj es) u =
      Some (l ++ filter (λ y, y ∉ l) (first_occurrences (omap (other_end ns u) es))).
Proof.
  induction es as [|e es IH]; intros adj u l Hkeys Hu; simpl.
  - by rewrite filter_nil, app_nil_r.
  - assert (Hkeys' : ∀ v, v ∈ dict_keys (add_edge adj e) ↔ v ∈ ns)
      by (intros v; by rewrite add_edge_keys).
    rewrite (IH _ u _ Hkeys' (add_edge_get ns adj e u l Hkeys Hu)).
    f_equal. destruct (other_end ns u e) as [w|]; simpl; [|done].
    apply first_occurrences_step.
Qed.

(** X11.  The neighbour list of a vertex in the built graph, read off the
    request: a name that is not in the vertex list is not a key, and the
    list of a vertex [u] holds the other ends of the edges that join [u] to
    a different vertex of the list, in the order in which they first occur
    in the edge list, each once. *)
Theorem build_adj_neighbours ns es u :
  dict_get (build_adj ns es) u =
    if bool_decide (u ∈ ns)
    then Some (first_occurrences (omap (other_end ns u) es))
    else None.
Proof.
  case_bool_decide as Hu.
  - unfold build_adj. simpl.
    rewrite (foldl_add_edge_get ns es (init_adj ns) u []).
    + simpl. f_equal. apply filter_all_id, Forall_forall.
      intros y _ Hy. inversion Hy.
    + apply init_adj_keys_elem.
    + by rewrite init_adj_get, bool_decide_eq_true_2.
  - apply dict_get_None_keys. by rewrite build_adj_keys_elem.
Qed.

(** ** The constraint checker and the engine on their own *)

(** X12.  The contract of [compatible]: it raises exactly when the vertex
    is not a key of the graph; otherwise it answers [False] exactly when
    some listed neighbour holds the colour asked about, where a neighbour
    without a colour counts as holding [-1].  So for every colour other than
    [-1] uncoloured neighbours never conflict, and for [-1] they do. *)
Theorem compatible_contract adj u c p :
  (compatible u c p adj = None ↔ u ∉ dict_keys adj) ∧
  (∀ b, compatible u c p adj = Some b →
        (b = false ↔
         ∃ v, adjacent adj u v ∧ (p !! v = Some c ∨ (c = -1 ∧ p !! v = None)))).
Proof.
  unfold compatible, adjacent. split.
  - rewrite <- dict_get_None_keys.
    destruct (dict_get adj u); simpl; split; done.
  - intros b. destruct (dict_get adj u) as [ns|] eqn:E; simpl; [|done].
    intros [= <-]. rewrite forallb_false_elem. split.
    + intros (v & Hv & Hx). exists v. split; [by eauto |].
      apply negb_false_iff, Z.eqb_eq in Hx.
      destruct (p !! v) as [cv|]; simpl in Hx; [left; by subst | right; by subst].
    + intros (v & (ns' & [= <-] & Hv) & [Hp|[-> Hp]]); exists v;
        (split; [done |]); rewrite Hp; simpl; [by rewrite Z.eqb_refl | done].
Qed.

Lemma compatible_contract_witness :
  compatible "A" (-1) ∅ cycle4 = Some false ∧
  compatible "A" 0 ∅ cycle4 = Some true ∧
  compatible "Z" 0 ∅ cycle4 = None.
Proof.
  split_and!.
  - destruct (compatible_contract cycle4 "A" (-1) ∅) as [_ H].
    assert (E : is_Some (compatible "A" (-1) ∅ cycle4))
      by (apply compatible_total; vm_compute; in_list).
    destruct E as [b E]. rewrite E. f_equal. apply (H b E).
    exists "B". split; [exists ["B"; "D"]; split; [reflexivity | in_list] |].
    right. split; [done | apply lookup_empty].
  - reflexivity.
  - destruct (compatible_contract cycle4 "Z" 0 ∅) as [H _]. apply H.
    vm_compute. intros Hz. repeat (apply elem_of_cons in Hz as [Hz|Hz]; [done |]).
    inversion Hz.
Defined.

(** On a well-formed graph no subscript of the engine faults. *)
Lemma color_graph_backtracking_returns adj k order :
  adj_ok adj → ∃ b q t, color_graph_backtracking adj k order = Some (b, q, t).
Proof.
  intros Hadj.
  destruct (color_graph_backtracking_explore adj k order (adj_keys_nodup _ Hadj))
    as ([q|] & t & _ & _ & Hrun); eauto.
Qed.

(** X13.  The engine without the endpoint's validation, on any well-formed
    graph and for any integer [k]: whenever it returns, the flag is [True]
    exactly when the graph has a proper colouring with colours in [[0, k)];
    the colours returned are then such a colouring, and empty otherwise.  On
    a graph without vertices the answer is [True] with the [done] step
    alone; on a graph with vertices and [k <= 0] it is [False] with no
    step. *)
Theorem engine_answers adj k order b q t :
  adj_ok adj →
  color_graph_backtracking adj k order = Some (b, q, t) →
  (b = true ↔ colorable adj k) ∧
  (b = true → coloring adj k q) ∧
  (b = false → q = ∅) ∧
  (dict_keys adj = [] → b = true ∧ t = [mkStep "done" "" None (Some ∅)]) ∧
  (dict_keys adj ≠ [] → k ≤ 0 → b = false ∧ t = []).
Proof.
  intros Hadj Hret.
  assert (H : ∃ b q t,
    color_graph_backtracking adj k order = Some (b, q, t) ∧
    (b = true ↔ colorable adj k) ∧
    (b = true → coloring adj k q) ∧
    (b = false → q = ∅) ∧
    (dict_keys adj = [] → b = true ∧ t = [mkStep "done" "" None (Some ∅)]) ∧
    (dict_keys adj ≠ [] → k ≤ 0 → b = false ∧ t = [])).
  { clear b q t Hret.
    destruct (color_graph_backtracking_explore adj k order (adj_keys_nodup _ Hadj))
      as (res & t & Hex & _ & Hrun).
    assert (Hnil : dict_keys adj = [] → res = Some ∅ ∧ t = [mkStep "done" "" None (Some ∅)]).
    { intros E. pose proof (order_nodes_perm adj order) as Hperm. rewrite E in Hperm.
      apply Permutation_nil_r in Hperm. rewrite Hperm in Hex. by destruct Hex. }
    assert (Hneg : dict_keys adj ≠ [] → k ≤ 0 → res = None ∧ t = []).
    { intros Hne Hk. destruct (order_nodes adj order) as [|u rest] eqn:E.
      - destruct Hne. apply Permutation_nil_r. rewrite <- E. symmetry.
        apply order_nodes_perm.
      - simpl in Hex. inversion Hex; subst; try lia. done. }
    destruct res as [q|].
    - exists true, q, t. split; [done |].
      destruct (explore_success _ _ _ Hadj _ _ _ Hex (proper_empty _) _ eq_refl)
        as (Hprop & Hall & _).
      assert (Hcol : coloring adj k q).
      { split; [|done]. intros u Hu. apply Hall. by rewrite order_nodes_elem. }
      split_and!; try done.
      + split; [intros _; by exists q | done].
      + intros E. split; [done |]. by destruct (Hnil E).
      + intros Hne Hk. by destruct (Hneg Hne Hk).
    - exists false, ∅, t. split; [done |]. split_and!; try done.
      + split; [done |]. intros (q & Hall & Hprop).
        destruct (explore_failure_no_extension _ _ _ _ _ Hex q); try done.
        * apply map_empty_subseteq.
        * intros u Hu. apply Hall. by rewrite order_nodes_elem in Hu.
      + intros E. by destruct (Hnil E).
      + intros Hne Hk. split; [done |]. by destruct (Hneg Hne Hk).
  }
  destruct H as (b' & q' & t' & Hret' & H).
  rewrite Hret in Hret'. injection Hret' as <- <- <-. exact H.
Qed.

Lemma engine_answers_witness :
  (∃ q t, color_graph_backtracking cycle4 2 "degree" = Some (true, q, t) ∧
          coloring cycle4 2 q ∧ colorable cycle4 2) ∧
  (∃ t, color_graph_backtracking
          (build_adj (nodes triangle2) (edges triangle2)) 2 "degree"
          = Some (false, ∅, t) ∧
        ¬ colorable (build_adj (nodes triangle2) (edges triangle2)) 2) ∧
  color_graph_backtracking cycle4 0 "degree" = Some (false, ∅, []).
Proof.
  split; [|split].
  - destruct (color_graph_backtracking_returns cycle4 2 "degree"
                (build_adj_ok _ _)) as (b & q & t & E).
    assert (Hb : (λ r, r.1.1) <$> color_graph_backtracking cycle4 2 "degree"
                 = Some true) by (vm_compute; reflexivity).
    rewrite E in Hb. simpl in Hb. injection Hb as ->.
    destruct (engine_answers cycle4 2 "degree" true q t (build_adj_ok _ _) E)
      as (Hiff & Hcol & _).
    exists q, t. split; [done |]. split; [by apply Hcol | by apply Hiff].
  - set (adj := build_adj (nodes triangle2) (edges triangle2)).
    destruct (color_graph_backtracking_returns adj 2 "degree"
                (build_adj_ok _ _)) as (b & q & t & E).
    assert (Hb : (λ r, r.1.1) <$> color_graph_backtracking adj 2 "degree"
                 = Some false) by (vm_compute; reflexivity).
    rewrite E in Hb. simpl in Hb. injection Hb as ->.
    destruct (engine_answers adj 2 "degree" false q t (build_adj_ok _ _) E)
      as (Hiff & _ & Hq & _).
    rewrite (Hq eq_refl) in E. exists t. split; [exact E |].
    intros Hc. apply Hiff in Hc. discriminate.
  - destruct (color_graph_backtracking_returns cycle4 0 "degree"
                (build_adj_ok _ _)) as (b & q & t & E).
    destruct (engine_answers cycle4 0 "degree" b q t (build_adj_ok _ _) E)
      as (_ & _ & Hq & _ & Hneg).
    destruct Hneg as [-> ->]; [by vm_compute | lia |].
    rewrite E. by rewrite (Hq eq_refl).
Defined.

(** ** The response *)

Lemma explore_nonempty adj k rest p res t :
  0 < k → rest ≠ [] → explore adj k rest p res t → t ≠ [].
Proof.
  intros Hk Hne H. destruct rest as [|u rest]; [done |]. simpl in H.
  inversion H; subst; [lia | done | done | done].
Qed.

(** X14.  The fields of every response of [solve] agree with one another:
    [ok] is true exactly when the message is the one for a solution found;
    the colours of a successful answer have exactly the vertex names of the
    request as keys; the colours of any other answer are empty; the trace is
    empty exactly when the request was rejected by validation; and a failure
    with a trace carries the message that no colouring exists. *)
Theorem solve_response_shape req resp :
  solve req = Some resp →
  (ok resp = true ↔ message resp = "Solución encontrada.") ∧
  (ok resp = true → ∀ u, is_Some (colors resp !! u) ↔ u ∈ nodes req) ∧
  (ok resp = false → colors resp = ∅) ∧
  (steps resp = [] ↔ ¬ (2 ≤ k_colors req ≤ 5) ∨ nodes req = []) ∧
  (ok resp = false → steps resp ≠ [] →
   message resp = "No existe coloreo con k colores.").
Proof.
  intros Hret.
  assert (H : ∃ resp, solve req = Some resp ∧
    (ok resp = true ↔ message resp = "Solución encontrada.") ∧
    (ok resp = true → ∀ u, is_Some (colors resp !! u) ↔ u ∈ nodes req) ∧
    (ok resp = false → colors resp = ∅) ∧
    (steps resp = [] ↔ ¬ (2 ≤ k_colors req ≤ 5) ∨ nodes req = []) ∧
    (ok resp = false → steps resp ≠ [] →
     message resp = "No existe coloreo con k colores.")).
  { clear resp Hret.
    destruct (decide (2 ≤ k_colors req ≤ 5)) as [Hk|Hk].
    - destruct (decide (nodes req = [])) as [Hn|Hn].
      + eexists. split; [by apply solve_rejects_empty |]. simpl.
        split_and!; try done. split; auto.
      + pose proof (build_adj_ok (nodes req) (edges req)) as Hadj.
        destruct (solve_explore req Hk Hn) as (res & t & Hex & _ & Hrun).
        eexists. split; [exact Hrun |].
        assert (Ht : t ≠ []).
        { assert (H0 : 0 < k_colors req) by lia.
          apply (explore_nonempty _ _ _ _ _ _ H0) in Hex; [done |].
          intros E. apply Hn.
          destruct (nodes req) as [|u l] eqn:En; [done |].
          assert (Hu : u ∈ order_nodes (build_adj (u :: l) (edges req))
                            (order_or_degree (order req)))
            by (rewrite order_nodes_elem, build_adj_keys_elem; left).
          rewrite E in Hu. inversion Hu. }
        destruct res as [q|]; simpl.
        * destruct (explore_success _ _ _ Hadj _ _ _ Hex (proper_empty _) _ eq_refl)
            as (_ & Hall & Hframe).
          split_and!; try done.
          -- intros _ u. rewrite <- build_adj_keys_elem, <- order_nodes_elem.
             split.
             ++ intros Hq. destruct (decide (u ∈ order_nodes
                    (build_adj (nodes req) (edges req))
                    (order_or_degree (order req)))) as [|Hnin]; [done |].
                rewrite (Hframe u Hnin), lookup_empty in Hq. by destruct Hq.
             ++ intros Hu. destruct (Hall u Hu) as (c & -> & _). by eexists.
          -- split; [done | tauto].
        * split_and!; try done. split; [done | tauto].
    - eexists. split; [by apply solve_rejects_k |]. simpl.
      split_and!; try done. split; auto.
  }
  destruct H as (resp' & Hret' & H).
  rewrite Hret in Hret'. injection Hret' as <-. exact H.
Qed.

Lemma solve_response_shape_witness :
  (∃ resp, solve triangle3 = Some resp ∧
           message resp = "Solución encontrada." ∧
           (∀ u, is_Some (colors resp !! u) ↔ u ∈ ["A"; "B"; "C"]) ∧
           steps resp ≠ []) ∧
  (∃ resp, solve triangle2 = Some resp ∧ colors resp = ∅ ∧
           message resp = "No existe coloreo con k colores.").
Proof.
  split.
  - destruct (solve_total triangle3) as [resp E].
    assert (Hok : ok <$> solve triangle3 = Some true) by (vm_compute; reflexivity).
    rewrite E in Hok. simpl in Hok. injection Hok as Hok.
    destruct (solve_response_shape triangle3 resp E) as (H1 & H2 & _ & H4 & _).
    exists resp. split; [exact E |]. split; [by apply H1 |].
    split; [exact (H2 Hok) |].
    intros Ht. apply H4 in Ht. destruct Ht as [Hk|Hn].
    + apply Hk. simpl. lia.
    + discriminate Hn.
  - destruct (solve_total triangle2) as [resp E].
    assert (Hok : ok <$> solve triangle2 = Some false) by (vm_compute; reflexivity).
    rewrite E in Hok. simpl in Hok. injection Hok as Hok.
    destruct (solve_response_shape triangle2 resp E) as (_ & _ & H3 & H4 & H5).
    exists resp. split; [exact E |]. split; [exact (H3 Hok) |].
    apply (H5 Hok). intros Ht. apply H4 in Ht. destruct Ht as [Hk|Hn].
    + apply Hk. simpl. lia.
    + discriminate Hn.
Defined.

(** ** One object per step *)

Section AllocFacts.
Context (adj : dict (list string)) (k : Z) (live : loc).

Lemma record_s_alloc a u c hst hst' :
  record_s live a u c hst = Some hst' → alloc_inv hst → alloc_inv hst'.
Proof.
  unfold record_s. destruct (hst.1 !! live) as [d|]; simpl; [|done].
  intros [= <-] [Hlen Hpart]. split; simpl.
  - rewrite !length_app. simpl. lia.
  - rewrite fmap_app, length_app, Hpart. simpl.
    rewrite Nat.add_1_r, seq_S, fmap_app, Hlen. done.
Qed.

Lemma set_color_s_alloc u c hst hst' :
  set_color_s live u c hst = Some hst' → alloc_inv hst → alloc_inv hst'.
Proof.
  unfold set_color_s. destruct (hst.1 !! live) as [d|]; simpl; [|done].
  intros [= <-] [Hlen Hpart]. split; simpl; [by rewrite length_insert | done].
Qed.

Lemma del_color_s_alloc u hst hst' :
  del_color_s live u hst = Some hst' → alloc_inv hst → alloc_inv hst'.
Proof.
  unfold del_color_s. destruct (hst.1 !! live) as [d|]; simpl; [|done].
  destruct (d !! u); simpl; [|done].
  intros [= <-] [Hlen Hpart]. split; simpl; [by rewrite length_insert | done].
Qed.

Lemma color_loop_s_alloc rec u cs :
  (∀ hst r hst', rec hst = Some (r, hst') → alloc_inv hst → alloc_inv hst') →
  ∀ hst r hst', color_loop_s adj live rec u cs hst = Some (r, hst') →
    alloc_inv hst → alloc_inv hst'.
Proof.
  intros Hrec. induction cs as [|c cs IH]; intros hst r hst'; simpl.
  - by intros [= <- <-].
  - destruct (record_s live "try" u (Some c) hst) as [h1|] eqn:E1; simpl; [|done].
    destruct (compatible_s adj live u c h1) as [[|]|]; simpl; [| | done].
    + destruct (set_color_s live u c h1) as [h2|] eqn:E2; simpl; [|done].
      destruct (record_s live "assign" u (Some c) h2) as [h3|] eqn:E3; simpl; [|done].
      destruct (rec h3) as [[[|] h4]|] eqn:E4; simpl; [| | done].
      * intros [= <- <-] Hinv.
        eapply Hrec; [exact E4 |]. eapply record_s_alloc; [exact E3 |].
        eapply set_color_s_alloc; [exact E2 |]. by eapply record_s_alloc.
      * destruct (record_s live "backtrack" u (Some c) h4) as [h5|] eqn:E5;
          simpl; [|done].
        destruct (del_color_s live u h5) as [h6|] eqn:E6; simpl; [|done].
        intros Hloop Hinv. apply (IH _ _ _ Hloop).
        eapply del_color_s_alloc; [exact E6 |]. eapply record_s_alloc; [exact E5 |].
        eapply Hrec; [exact E4 |]. eapply record_s_alloc; [exact E3 |].
        eapply set_color_s_alloc; [exact E2 |]. by eapply record_s_alloc.
    + destruct (record_s live "conflict" u (Some c) h1) as [h2|] eqn:E2;
        simpl; [|done].
      intros Hloop Hinv. apply (IH _ _ _ Hloop).
      eapply record_s_alloc; [exact E2 |]. by eapply record_s_alloc.
Qed.

Lemma backtrack_s_alloc rest :
  ∀ hst r hst', backtrack_s adj k live rest hst = Some (r, hst') →
    alloc_inv hst → alloc_inv hst'.
Proof.
  induction rest as [|u rest IH]; intros hst r hst'; simpl.
  - destruct (record_s live "done" "" None hst) as [h1|] eqn:E1; simpl; [|done].
    intros [= <- <-] Hinv. by eapply record_s_alloc.
  - by apply color_loop_s_alloc.
Qed.
End AllocFacts.

(** X15.  In the store-level model a run allocates one dictionary per
    recorded step and nothing else while it searches: the step at position
    [i] of the trace refers to the object at address [i + 1], so no two
    steps share a snapshot and none refers to the live dictionary at address
    [0].  On success the dictionary returned is the live one itself; on
    failure it is one more, empty, object. *)
Theorem run_allocates_one_object_per_step adj k order b lc xs h :
  color_graph_backtracking_s adj k order = Some (b, lc, xs, h) →
  (∀ i x, xs !! i = Some x → partial x = Some (S i)) ∧
  length h = (length xs + if b then 1 else 2)%nat ∧
  lc = (if b then 0 else S (length xs))%nat ∧
  (b = false → h !! lc = Some ∅).
Proof.
  unfold color_graph_backtracking_s. simpl.
  destruct (backtrack_s adj k 0%nat (order_nodes adj order) ([∅], []))
    as [[r [h' xs']]|] eqn:E; simpl; [|done].
  apply backtrack_s_alloc in E as [Hlen Hpart]; [|by split].
  simpl in *.
  assert (Hx : ∀ i x, xs' !! i = Some x → partial x = Some (S i)).
  { intros i x Hi.
    assert (Hp : (partial <$> xs') !! i = Some (partial x))
      by (by rewrite list_lookup_fmap, Hi).
    rewrite Hpart, list_lookup_fmap in Hp.
    destruct (seq 1 (length xs') !! i) as [n|] eqn:Es; simpl in Hp; [|done].
    apply lookup_seq in Es as [-> _]. by injection Hp as <-. }
  destruct r; intros [= <- <- <- <-]; split_and!; try done.
  - lia.
  - rewrite length_app. simpl. lia.
  - intros _. by apply list_lookup_middle.
Qed.

Lemma run_allocates_one_object_per_step_witness :
  ∃ lc xs h,
    color_graph_backtracking_s (build_adj (nodes triangle2) (edges triangle2))
      2 "natural" = Some (false, lc, xs, h) ∧
    length h = (length xs + 2)%nat ∧ lc = S (length xs) ∧ h !! lc = Some ∅.
Proof.
  set (adj := build_adj (nodes triangle2) (edges triangle2)).
  assert (Hc : (λ r, r.1.1.1) <$> color_graph_backtracking_s adj 2 "natural"
               = Some false) by (vm_compute; reflexivity).
  destruct (color_graph_backtracking_s adj 2 "natural")
    as [[[[b lc] xs] h]|] eqn:E; [|discriminate Hc].
  simpl in Hc. injection Hc as ->.
  destruct (run_allocates_one_object_per_step adj 2 "natural" false lc xs h E)
    as (_ & H1 & H2 & H3).
  exists lc, xs, h. split; [reflexivity |]. split; [exact H1 |].
  split; [exact H2 | by apply H3].
Defined.

(** ** More colours, fewer edges *)

(** X16.  Success is monotone: if a request is answered with [ok = true],
    so is any request on the same vertices whose [k] is at least as large
    (within the accepted range) and whose edges all occur, in one direction
    or the other, among the edges of the first. *)
Theorem solve_ok_monotone req1 req2 r1 r2 :
  2 ≤ k_colors req1 → k_colors req1 ≤ k_colors req2 → k_colors req2 ≤ 5 →
  (∀ u, u ∈ nodes req1 ↔ u ∈ nodes req2) →
  (∀ u v, mkEdge u v ∈ edges req2 →
          mkEdge u v ∈ edges req1 ∨ mkEdge v u ∈ edges req1) →
  solve req1 = Some r1 → solve req2 = Some r2 →
  ok r1 = true → ok r2 = true.
Proof.
  intros Hk1 Hle Hk2 Hn He Hs1 Hs2 Hok.
  destruct (solve_inv req1 r1 Hs1)
    as [(_ & Hf & _)|(_ & N1 & _)]; [congruence |].
  assert (N2 : nodes req2 ≠ []).
  { intros E2. destruct (nodes req1) as [|u l] eqn:E; [done |].
    assert (Hu : u ∈ nodes req2) by (apply Hn; left).
    rewrite E2 in Hu. inversion Hu. }
  destruct (solve_explore_colorable req1) as (r1' & Hs1' & T1 & _); [lia | done |].
  rewrite Hs1 in Hs1'. injection Hs1' as <-.
  destruct (solve_explore_colorable req2) as (r2' & Hs2' & _ & F2); [lia | done |].
  rewrite Hs2 in Hs2'. injection Hs2' as <-.
  destruct (ok r2) eqn:O2; [done |]. destruct F2; [done |].
  destruct (T1 Hok) as [Hall Hprop]. exists (colors r1). split.
  - intros u Hu. rewrite build_adj_keys_elem, <- Hn, <- build_adj_keys_elem in Hu.
    destruct (Hall u Hu) as (c & Hc & Hr). exists c. split; [done | lia].
  - intros u v c Huv. apply Hprop. revert Huv. rewrite !build_adj_adjacent.
    intros (Hu & Hv & Hne & e & Hin & Hends).
    split_and!; [by apply Hn | by apply Hn | done |].
    rewrite (Edge_eta e) in Hin. apply He in Hin.
    destruct Hin as [H|H]; eexists; (split; [exact H |]); simpl; tauto.
Qed.

Lemma solve_ok_monotone_witness :
  ∃ r1 r2, solve triangle3 = Some r1 ∧ solve two_edges4 = Some r2 ∧
           ok r1 = true ∧ ok r2 = true.
Proof.
  destruct (solve_total triangle3) as [r1 E1].
  destruct (solve_total two_edges4) as [r2 E2].
  assert (H1 : ok r1 = true).
  { assert (H : ok <$> solve triangle3 = Some true) by (vm_compute; reflexivity).
    rewrite E1 in H. by injection H. }
  exists r1, r2. split; [done |]. split; [done |]. split; [done |].
  apply (solve_ok_monotone triangle3 two_edges4 r1 r2);
    [simpl; lia | simpl; lia | simpl; lia | done | | done | done | done].
  intros u v. simpl. rewrite !elem_of_cons, !elem_of_nil, !mkEdge_inj. tauto.
Defined.

(** ** What each snapshot shows *)

Lemma snapshot_ok_try adj u c (p : assignment) :
  p !! u = None → snapshot_ok adj (mkStep "try" u (Some c) (Some p)).
Proof.
  intros Hp d [= <-]. simpl. split_and!; [done | done |].
  intros [?|?]; done.
Qed.

Lemma snapshot_ok_conflict adj u c (p : assignment) :
  p !! u = None → conflicts adj p u c →
  snapshot_ok adj (mkStep "conflict" u (Some c) (Some p)).
Proof.
  intros Hp (v & Hv & Hc) d [= <-]. simpl. split_and!; [done | |].
  - intros _. split; [done |]. by exists v, c.
  - intros [?|?]; done.
Qed.

Lemma snapshot_ok_set adj a u c (p : assignment) :
  a ≠ "try" → a ≠ "conflict" →
  snapshot_ok adj (mkStep a u (Some c) (Some (<[u := c]> p))).
Proof.
  intros H1 H2 d [= <-]. simpl. split_and!; [done | done |].
  intros _. exists c. by rewrite lookup_insert_eq.
Qed.

Lemma explore_snapshots_ok adj k rest :
  NoDup rest →
  ∀ p res t, (∀ u, u ∈ rest → p !! u = None) →
  explore adj k rest p res t → Forall (snapshot_ok adj) t.
Proof.
  induction rest as [|u rest IH]; simpl; intros Hnd p res t Hp H.
  - destruct H as [_ ->]. apply Forall_singleton.
    intros d _. simpl. split_and!; try done. intros [?|?]; done.
  - apply NoDup_cons in Hnd as [Hu Hnd].
    assert (Hpu : p !! u = None) by (apply Hp; left).
    assert (Hsub : ∀ c r t0, explore adj k rest (<[u := c]> p) r t0 →
                             Forall (snapshot_ok adj) t0).
    { intros c r t0. apply IH; [done |]. intros v Hv.
      rewrite lookup_insert_ne by (intros ->; done). apply Hp. by right. }
    remember 0 as c0 eqn:E in H. clear E.
    induction H as [c Hc|c res t Hc Hcf H IHt|c q' t Hc Hnc Hex
                    |c t res t' Hc Hnc Hex H IHt].
    + constructor.
    + apply Forall_cons_2; [by apply snapshot_ok_try |].
      apply Forall_cons_2; [by apply snapshot_ok_conflict | done].
    + apply Forall_cons_2; [by apply snapshot_ok_try |].
      apply Forall_cons_2; [by apply snapshot_ok_set |]. by eapply Hsub.
    + apply Forall_cons_2; [by apply snapshot_ok_try |].
      apply Forall_cons_2; [by apply snapshot_ok_set |].
      apply Forall_app_2; [by eapply Hsub |].
      apply Forall_cons_2; [by apply snapshot_ok_set | done].
Qed.

(** X17.  Every request is answered, and in the trace each snapshot stands
    to its step as follows: in a [try] step the vertex has no colour yet; in
    a [conflict] step it has none either and some neighbour of it holds the
    colour that was tried; in an [assign] or [backtrack] step the vertex
    holds the colour of the step. *)
Theorem trace_snapshots_match_steps req :
  ∃ resp, solve req = Some resp ∧
          Forall (snapshot_ok (build_adj (nodes req) (edges req))) (steps resp).
Proof.
  destruct (solve_total req) as [resp Hs]. exists resp. split; [done |].
  destruct (solve_inv req resp Hs)
    as [(Ht & _)|(_ & _ & res & Hex & _)].
  - rewrite Ht. constructor.
  - eapply explore_snapshots_ok; [| |exact Hex].
    + apply order_nodes_NoDup, (adj_keys_nodup _ (build_adj_ok _ _)).
    + intros u _. apply lookup_empty.
Qed.

(** X18.  In a successful answer every vertex without neighbours in the
    built graph has colour [0]. *)
Theorem isolated_vertex_gets_zero req resp u :
  solve req = Some resp → ok resp = true →
  u ∈ nodes req →
  (∀ v, ¬ adjacent (build_adj (nodes req) (edges req)) u v) →
  colors resp !! u = Some 0.
Proof.
  intros Hs Hok Hu Hiso.
  destruct (solve_ok_explore req resp Hs Hok) as [Hk Hex].
  pose proof (build_adj_ok (nodes req) (edges req)) as Hadj.
  destruct (explore_success _ _ _ Hadj _ _ _ Hex (proper_empty _) _ eq_refl)
    as (Hprop & Hall & _).
  set (adj := build_adj (nodes req) (edges req)) in *.
  set (ord := order_nodes adj (order_or_degree (order req))) in *.
  assert (Hord : u ∈ ord)
    by (unfold ord, adj; by rewrite order_nodes_elem, build_adj_keys_elem).
  destruct (list_elem_of_split _ _ Hord) as (done & rest' & Hsplit).
  assert (Hnd : NoDup ord) by apply order_nodes_NoDup, (adj_keys_nodup _ Hadj).
  assert (Hcol : coloring adj (k_colors req) (<[u := 0]> (colors resp))).
  { split.
    - intros v Hv. destruct (decide (u = v)) as [->|Hne].
      + exists 0. rewrite lookup_insert_eq. split; [done | lia].
      + rewrite lookup_insert_ne by done. apply Hall. unfold ord.
        by rewrite order_nodes_elem.
    - intros a b c Hab Ha Hb.
      destruct (decide (a = u)) as [->|Hau]; [by apply (Hiso b) |].
      destruct (decide (b = u)) as [->|Hbu].
      { apply (Hiso a). by apply (adj_sym _ Hadj). }
      rewrite lookup_insert_ne in Ha, Hb by done. by apply (Hprop a b c). }
  destruct (solve_ok_least req resp Hs Hok _ Hcol done u rest' Hsplit)
    as (c & c' & Hc & Hc' & Hle).
  { intros v Hv. apply lookup_insert_ne. intros ->.
    rewrite Hsplit in Hnd. apply NoDup_app in Hnd as (_ & Hdis & _).
    apply (Hdis v Hv). left. }
  rewrite lookup_insert_eq in Hc'. injection Hc' as <-.
  destruct (Hall u Hord) as (c0 & Hc0 & Hr). rewrite Hc in Hc0.
  injection Hc0 as <-. rewrite Hc. f_equal. lia.
Qed.

Lemma isolated_vertex_gets_zero_witness :
  ∃ resp, solve four_isolated = Some resp ∧ colors resp !! "C" = Some 0.
Proof.
  destruct (solve_total four_isolated) as [resp E]. exists resp. split; [done |].
  assert (H : ok <$> solve four_isolated = Some true) by (vm_compute; reflexivity).
  rewrite E in H. simpl in H. injection H as Hok.
  apply (isolated_vertex_gets_zero four_isolated resp "C" E Hok).
  - simpl. in_list.
  - intros v (ns & Hns & Hv). vm_compute in Hns. injection Hns as <-.
    inversion Hv.
Defined.
